(** * Linux Kernel Visualizer: tree filter, path resolver, highlighter and
      expansion state, embedded in Rocq.

    The development follows the TypeScript sources:
    - [types.ts]                 the [KernelNode] record;
    - [App.tsx]                  [filterTree], [findNodePath] and the [App]
                                 component with its event handlers;
    - [components/HighlightText.tsx]   the highlighter;
    - [components/KernelVisualizer.tsx], [components/TreeNode.tsx]
                                 the recursive tree view.

    Modelling conventions.
    - A JavaScript string is a list of code units.  The model covers the code
      units below 256 (Basic Latin and Latin-1), for which [toLowerCase],
      [trim] and the case folding of a regular expression with the [i] flag
      are written out below.
    - Objects are compared by reference ([===]).  Every [KernelNode] carries
      the identity of the object it stands for, and an object literal takes
      its identity from an allocation counter that is threaded through the
      code that evaluates it.
    - React state is explicit: a mounted [TreeNode] is an instance that owns
      its [isExpanded] flag, and rendering reconciles the old instances with
      the new element tree by position and key. *)

From Stdlib Require Import Ascii String.
From Stdlib Require Import List Bool Arith Lia.
From Stdlib Require Import PeanoNat.
Import ListNotations.

(* ================================================================== *)
(** * JavaScript strings *)
(* ================================================================== *)

Module JS.

Definition jsstring := list ascii.

(** A string literal as a list of code units. *)
Definition lit (s : string) : jsstring := list_ascii_of_string s.

Definition code (c : ascii) : nat := nat_of_ascii c.

Definition inRange (lo hi n : nat) : bool := (lo <=? n) && (n <=? hi).

(** [String.prototype.toLowerCase] on one code unit below 256:
    A-Z and the Latin-1 capitals U+00C0..U+00DE (except the multiplication
    sign U+00D7) move up by 32, everything else is unchanged. *)
Definition toLowerCaseChar (c : ascii) : ascii :=
  let n := code c in
  if inRange 65 90 n || (inRange 192 222 n && negb (n =? 215))
  then ascii_of_nat (n + 32)
  else c.

Definition toLowerCase (s : jsstring) : jsstring := map toLowerCaseChar s.

(** The [Canonicalize] operation of a regular expression with the [i] flag
    and without the [u] flag: the code unit of the upper-case form, when that
    form is a single code unit.  U+00FF maps to U+0178 and U+00B5 to U+039C;
    U+00DF has the two-unit upper case SS and is left alone. *)
Definition canonicalize (c : ascii) : nat :=
  let n := code c in
  if inRange 97 122 n || (inRange 224 254 n && negb (n =? 247)) then n - 32
  else if n =? 255 then 376
  else if n =? 181 then 924
  else n.

(** White space and line terminators, as [trim] strips them:
    TAB, LF, VT, FF, CR, SPACE and NO-BREAK SPACE. *)
Definition isWhiteSpace (c : ascii) : bool :=
  let n := code c in
  inRange 9 13 n || (n =? 32) || (n =? 160).

Fixpoint trimStart (s : jsstring) : jsstring :=
  match s with
  | [] => []
  | c :: r => if isWhiteSpace c then trimStart r else s
  end.

Fixpoint trimEnd (s : jsstring) : jsstring :=
  match s with
  | [] => []
  | c :: r =>
      match trimEnd r with
      | [] => if isWhiteSpace c then [] else [c]
      | r' => c :: r'
      end
  end.

Definition trim (s : jsstring) : jsstring := trimEnd (trimStart s).

Definition isEmpty (s : jsstring) : bool :=
  match s with [] => true | _ => false end.

(** [t] occurs at the start of [s]. *)
Fixpoint startsWith (s t : jsstring) : bool :=
  match t, s with
  | [], _ => true
  | _ :: _, [] => false
  | a :: t', b :: s' => Ascii.eqb a b && startsWith s' t'
  end.

(** [String.prototype.includes]. *)
Fixpoint includes (s t : jsstring) : bool :=
  startsWith s t ||
  match s with
  | [] => false
  | _ :: s' => includes s' t
  end.

(** [String.prototype.split] with a one-character string separator. *)
Fixpoint splitChar (sep : ascii) (s : jsstring) : list jsstring :=
  match s with
  | [] => [[]]
  | c :: r =>
      if Ascii.eqb c sep then [] :: splitChar sep r
      else match splitChar sep r with
           | [] => [[c]]
           | l :: ls => (c :: l) :: ls
           end
  end.

Definition newline : ascii := ascii_of_nat 10.

End JS.
Import JS.

(* ================================================================== *)
(** * The node model ([types.ts]) *)
(* ================================================================== *)

Unset Elimination Schemes.

(** [ident] is the identity of the JavaScript object; [children] is [None]
    when the optional property is absent. *)
Inductive KernelNode : Type :=
  mkNode {
    ident : nat;
    name : jsstring;
    summary : jsstring;
    description : jsstring;
    children : option (list KernelNode)
  }.

Set Elimination Schemes.

(** [node.children ?? []]. *)
Definition childList (n : KernelNode) : list KernelNode :=
  match children n with
  | Some cs => cs
  | None => []
  end.

(** [a === b] on node objects. *)
Definition sameObject (a b : KernelNode) : bool := ident a =? ident b.

(** [node.children && node.children.length > 0]. *)
Definition isDirectory (n : KernelNode) : bool :=
  match children n with
  | Some (_ :: _) => true
  | _ => false
  end.

Section KernelNode_ind.
Variable P : KernelNode -> Prop.
Hypothesis P_leaf : forall i n s d, P (mkNode i n s d None).
Hypothesis P_dir :
  forall i n s d cs, Forall P cs -> P (mkNode i n s d (Some cs)).

Fixpoint KernelNode_ind (t : KernelNode) : P t :=
  match t with
  | mkNode i n s d None => P_leaf i n s d
  | mkNode i n s d (Some cs) =>
      P_dir i n s d cs
        ((fix go (l : list KernelNode) : Forall P l :=
            match l with
            | [] => Forall_nil P
            | c :: l' => Forall_cons c (KernelNode_ind c) (go l')
            end) cs)
  end.
End KernelNode_ind.

(** All nodes of a tree in depth-first pre-order. *)
Fixpoint preorder (t : KernelNode) : list KernelNode :=
  t :: match children t with
       | Some cs => flat_map preorder cs
       | None => []
       end.

(** A well-formed tree: every object occurs once (a tree, not a DAG). *)
Definition wellFormed (t : KernelNode) : Prop :=
  NoDup (map ident (preorder t)).

(** [p] is the parent of [c]. *)
Definition parentOf (p c : KernelNode) : Prop := In c (childList p).

(* ================================================================== *)
(** * [filterTree] and [findNodePath] ([App.tsx]) *)
(* ================================================================== *)

(** The [isMatch] expression of [filterTree]. *)
Definition isMatch (node : KernelNode) (lowerCaseTerm : jsstring) : bool :=
  includes (toLowerCase (name node)) lowerCaseTerm ||
  includes (toLowerCase (summary node)) lowerCaseTerm ||
  includes (toLowerCase (description node)) lowerCaseTerm.

(** [.filter((child): child is KernelNode => child !== null)]. *)
Fixpoint filterNotNull (l : list (option KernelNode)) : list KernelNode :=
  match l with
  | [] => []
  | Some c :: r => c :: filterNotNull r
  | None :: r => filterNotNull r
  end.

(** [filteredChildren && filteredChildren.length > 0]. *)
Definition nonEmptyChildren (fc : option (list KernelNode)) : bool :=
  match fc with
  | Some (_ :: _) => true
  | _ => false
  end.

(** [filterTree node term], run with the allocation counter at [next]:
    the result and the counter afterwards.  The object literal
    [{ ...node, children: filteredChildren }] is a new object. *)
Fixpoint filterTree (node : KernelNode) (term : jsstring) (next : nat)
  {struct node} : option KernelNode * nat :=
  let lowerCaseTerm := trim (toLowerCase term) in
  if isEmpty lowerCaseTerm then (Some node, next)
  else
    let '(filteredChildren, next1) :=
      match children node with
      | None => (None, next)
      | Some cs =>
          let '(mapped, n) :=
            (fix mapChildren (l : list KernelNode) (k : nat)
               : list (option KernelNode) * nat :=
               match l with
               | [] => ([], k)
               | child :: rest =>
                   let '(r, k1) := filterTree child lowerCaseTerm k in
                   let '(rs, k2) := mapChildren rest k1 in
                   (r :: rs, k2)
               end) cs next in
          (Some (filterNotNull mapped), n)
      end in
    if isMatch node lowerCaseTerm || nonEmptyChildren filteredChildren
    then (Some (mkNode next1 (name node) (summary node) (description node)
                  filteredChildren), S next1)
    else (None, next1).

(** The [.map(child => filterTree(child, lowerCaseTerm))] of [filterTree]. *)
Definition mapFilterTree (lowerCaseTerm : jsstring)
  : list KernelNode -> nat -> list (option KernelNode) * nat :=
  fix mapChildren (l : list KernelNode) (k : nat)
    : list (option KernelNode) * nat :=
    match l with
    | [] => ([], k)
    | child :: rest =>
        let '(r, k1) := filterTree child lowerCaseTerm k in
        let '(rs, k2) := mapChildren rest k1 in
        (r :: rs, k2)
    end.

(** The [filteredChildren] of [filterTree]. *)
Definition filteredChildrenOf (node : KernelNode) (lowerCaseTerm : jsstring)
  (next : nat) : option (list KernelNode) * nat :=
  match children node with
  | None => (None, next)
  | Some cs =>
      let '(mapped, n) := mapFilterTree lowerCaseTerm cs next in
      (Some (filterNotNull mapped), n)
  end.

(** The inner [search] of [findNodePath]; [path] is the mutable array,
    [push] appends and [pop] removes the last element. *)
Fixpoint search (targetNode node : KernelNode) (path : list KernelNode)
  {struct node} : bool * list KernelNode :=
  let path := path ++ [node] in
  if sameObject node targetNode then (true, path)
  else
    let '(found, path1) :=
      match children node with
      | Some cs =>
          (fix loop (l : list KernelNode) (p : list KernelNode)
             : bool * list KernelNode :=
             match l with
             | [] => (false, p)
             | child :: rest =>
                 let '(b, p1) := search targetNode child p in
                 if b then (true, p1) else loop rest p1
             end) cs path
      | None => (false, path)
      end in
    if found then (true, path1) else (false, removelast path1).

(** The [for (const child of node.children)] loop of [search]. *)
Definition searchChildren (targetNode : KernelNode)
  : list KernelNode -> list KernelNode -> bool * list KernelNode :=
  fix loop (l : list KernelNode) (p : list KernelNode)
    : bool * list KernelNode :=
    match l with
    | [] => (false, p)
    | child :: rest =>
        let '(b, p1) := search targetNode child p in
        if b then (true, p1) else loop rest p1
    end.

Definition findNodePath (root targetNode : KernelNode) : list KernelNode :=
  snd (search targetNode root []).

(* ================================================================== *)
(** * The highlighter ([components/HighlightText.tsx]) *)
(* ================================================================== *)

(** What [highlightPart] returns: a [<strong>] element for a matched part,
    a fragment for a plain one. *)
Inductive Tag : Type := Plain | Matched.

Record Span : Type := mkSpan { tag : Tag; text : jsstring }.

(** The [as] property. *)
Inductive AsMode : Type := AsP | AsSpan.

(** The rendered output: inline parts, or one list of parts per [<p>]. *)
Inductive Rendered : Type :=
| Inline (parts : list Span)
| Paragraphs (lines : list (list Span)).

(** The regular expression built from [highlight]: every syntax character
    is escaped, so the pattern is the literal term inside one capture group,
    compared code unit by code unit after [canonicalize] (flag [i]).
    [matchesAt term s] says that it matches at the start of [s]. *)
Fixpoint matchesAt (term s : jsstring) : bool :=
  match term, s with
  | [], _ => true
  | _ :: _, [] => false
  | a :: term', b :: s' =>
      (canonicalize a =? canonicalize b) && matchesAt term' s'
  end.

(** The scanning loop of [String.prototype.split] with that expression.
    [plain] is the text between the end of the last match (index p) and the
    current index q, [rest] the text from q on.  A match at q ending at p is
    skipped; otherwise the plain text and the captured match are pushed and
    scanning goes on after the match. *)
Fixpoint splitLoop (fuel : nat) (term plain rest : jsstring)
  : list jsstring :=
  match fuel with
  | 0 => [plain ++ rest]
  | S fuel' =>
      match rest with
      | [] => [plain]
      | c :: rest' =>
          if matchesAt term rest && negb (isEmpty term && isEmpty plain)
          then plain :: firstn (length term) rest
                 :: splitLoop fuel' term [] (skipn (length term) rest)
          else splitLoop fuel' term (plain ++ [c]) rest'
      end
  end.

(** [text.split(regex)]. *)
Definition splitRegex (term text : jsstring) : list jsstring :=
  splitLoop (S (2 * length text)) term [] text.

(** First offset of [s] at which the expression matches. *)
Fixpoint findMatch (term s : jsstring) : option nat :=
  if matchesAt term s then Some 0
  else match s with
       | [] => None
       | _ :: s' => option_map S (findMatch term s')
       end.

(** [regex.test(part)] for an expression with the [g] flag: the search
    starts at [lastIndex]; the result and the new [lastIndex]. *)
Definition regexTest (term : jsstring) (lastIndex : nat) (part : jsstring)
  : bool * nat :=
  if length part <? lastIndex then (false, 0)
  else match findMatch term (skipn lastIndex part) with
       | Some off => (true, lastIndex + off + length term)
       | None => (false, 0)
       end.

Definition highlightPart (term : jsstring) (lastIndex : nat)
  (part : jsstring) : Span * nat :=
  let '(b, lastIndex') := regexTest term lastIndex part in
  (mkSpan (if b then Matched else Plain) part, lastIndex').

(** [parts.map(highlightPart)], the expression object being shared. *)
Fixpoint highlightParts (term : jsstring) (lastIndex : nat)
  (parts : list jsstring) : list Span * nat :=
  match parts with
  | [] => ([], lastIndex)
  | part :: rest =>
      let '(sp, i1) := highlightPart term lastIndex part in
      let '(sps, i2) := highlightParts term i1 rest in
      (sp :: sps, i2)
  end.

(** [lines.map(line => <p>{line.split(regex).map(highlightPart)}</p>)]. *)
Fixpoint highlightLines (term : jsstring) (lastIndex : nat)
  (lines : list jsstring) : list (list Span) * nat :=
  match lines with
  | [] => ([], lastIndex)
  | line :: rest =>
      let '(sps, i1) := highlightParts term lastIndex (splitRegex term line) in
      let '(ps, i2) := highlightLines term i1 rest in
      (sps :: ps, i2)
  end.

Definition HighlightText (text highlight : jsstring) (as_ : AsMode)
  : Rendered :=
  if isEmpty (trim highlight) then
    match as_ with
    | AsP => Paragraphs (map (fun line => [mkSpan Plain line])
                           (splitChar newline text))
    | AsSpan => Inline [mkSpan Plain text]
    end
  else
    match as_ with
    | AsP => Paragraphs (fst (highlightLines highlight 0
                                (splitChar newline text)))
    | AsSpan => Inline (fst (highlightParts highlight 0
                               (splitRegex highlight text)))
    end.

(** All spans of a rendering, in document order. *)
Definition spansOf (r : Rendered) : list Span :=
  match r with
  | Inline parts => parts
  | Paragraphs lines => concat lines
  end.

Definition isMatched (sp : Span) : bool :=
  match tag sp with Matched => true | Plain => false end.

Definition hasMatchedSpan (r : Rendered) : bool :=
  existsb isMatched (spansOf r).

Definition concatText (l : list Span) : jsstring := concat (map text l).

(** Spans alternate plain, matched, plain, ..., and end with a plain one. *)
Fixpoint alternating (l : list Span) : bool :=
  match l with
  | [p] => negb (isMatched p)
  | p :: m :: rest => negb (isMatched p) && isMatched m && alternating rest
  | [] => false
  end.

(** [Array.prototype.join] with a line break. *)
Fixpoint joinLines (ls : list jsstring) : jsstring :=
  match ls with
  | [] => []
  | [l] => l
  | l :: rest => l ++ newline :: joinLines rest
  end.

(* ================================================================== *)
(** * The tree view ([components/TreeNode.tsx], [KernelVisualizer.tsx]) *)
(* ================================================================== *)

(** [a === b] on strings. *)
Definition strEq (a b : jsstring) : bool :=
  if list_eq_dec ascii_dec a b then true else false.

Unset Elimination Schemes.

(** A mounted [TreeNode]: the [node] property of its last render, the value
    of its [isExpanded] state hook, and the mounted [TreeNode]s of its
    [<ul role="group">] (none while the group is not rendered). *)
Inductive Instance : Type :=
  mkInstance {
    inode : KernelNode;
    isExpanded : bool;
    kids : list Instance
  }.

Set Elimination Schemes.

(** The mounted child that React keeps for the element with key
    [`${child.name}-${index}`]: the old child at the same index, if it was
    rendered for the same name.  (The index ends the key, so two keys are
    equal exactly when name and index are.) *)
Definition retained (oldKids : list Instance) (index : nat)
  (child : KernelNode) : option Instance :=
  match nth_error oldKids index with
  | Some o => if strEq (name (inode o)) (name child) then Some o else None
  | None => None
  end.

(** One render of [<TreeNode node isRoot startExpanded />] against the
    instance [old] that React keeps for it, if any.
    [useState(isRoot || startExpanded)] reads its argument only when the
    component mounts; the children are rendered only under
    [isExpanded && isDirectory], each with [startExpanded] passed on and
    [isRoot] left at its default [false]. *)
Fixpoint renderTreeNode (node : KernelNode) (isRoot startExpanded : bool)
  (old : option Instance) {struct node} : Instance :=
  let expanded :=
    match old with
    | Some o => isExpanded o
    | None => isRoot || startExpanded
    end in
  let oldKids := match old with Some o => kids o | None => [] end in
  mkInstance node expanded
    (if expanded && isDirectory node then
       match children node with
       | Some cs =>
           (fix renderChildren (l : list KernelNode) (index : nat)
              : list Instance :=
              match l with
              | [] => []
              | child :: rest =>
                  renderTreeNode child false startExpanded
                    (retained oldKids index child)
                    :: renderChildren rest (S index)
              end) cs 0
       | None => []
       end
     else []).

(** The [node.children?.map((child, index) => <TreeNode ... />)] of
    [TreeNode], from [index] on. *)
Definition renderChildren (startExpanded : bool) (oldKids : list Instance)
  : list KernelNode -> nat -> list Instance :=
  fix renderChildren (l : list KernelNode) (index : nat) : list Instance :=
    match l with
    | [] => []
    | child :: rest =>
        renderTreeNode child false startExpanded
          (retained oldKids index child)
          :: renderChildren rest (S index)
    end.

(** The instance at a position of the view: [path] lists child indices
    from the root. *)
Fixpoint instanceAt (path : list nat) (inst : Instance) : option Instance :=
  match path with
  | [] => Some inst
  | i :: path' =>
      match nth_error (kids inst) i with
      | Some k => instanceAt path' k
      | None => None
      end
  end.

Fixpoint updateNth (l : list Instance) (i : nat) (f : Instance -> Instance)
  : list Instance :=
  match l, i with
  | [], _ => []
  | x :: r, 0 => f x :: r
  | x :: r, S i' => x :: updateNth r i' f
  end.

(** [setIsExpanded(prev => !prev)] in the instance at [path]. *)
Fixpoint toggleAt (path : list nat) (inst : Instance) : Instance :=
  match path with
  | [] => mkInstance (inode inst) (negb (isExpanded inst)) (kids inst)
  | i :: path' =>
      mkInstance (inode inst) (isExpanded inst)
        (updateNth (kids inst) i (toggleAt path'))
  end.

(** Every mounted instance below (and including) [inst] is expanded. *)
Fixpoint allExpanded (inst : Instance) : bool :=
  isExpanded inst && forallb allExpanded (kids inst).

(** The nodes shown by the view, in document order. *)
Fixpoint shownNodes (inst : Instance) : list KernelNode :=
  inode inst :: flat_map shownNodes (kids inst).

(* ================================================================== *)
(** * The application ([App.tsx]) *)
(* ================================================================== *)

(** The state hooks of [App], the cell of [useMemo], the allocation
    counter, and what is mounted under the ternary of the tree column:
    the [KernelVisualizer] with its [key] and root instance, or nothing
    when the "No results found" block is rendered instead. *)
Record AppState : Type := mkApp {
  searchTerm : jsstring;
  visualizerKey : nat;
  selectedNode : option KernelNode;
  selectedNodePath : list KernelNode;
  memoTerm : jsstring;
  filteredData : option KernelNode;
  heapNext : nat;
  mounted : option (nat * Instance)
}.

(** The user events that reach a handler. *)
Inductive Event : Type :=
| SearchChange (value : jsstring)   (* onChange of the search input *)
| CollapseAll                       (* the Collapse All button *)
| Interact (path : list nat)        (* click, Enter or Space on a TreeNode *)
| Breadcrumb (index : nat).         (* click on a breadcrumb button *)

Section App.

(** [import { kernelData } from './data/kernelData'], the canonical tree. *)
Variable kernelData : KernelNode.

(** The body of [useMemo(() => ..., [searchTerm])]. *)
Definition computeFiltered (term : jsstring) (next : nat)
  : option KernelNode * nat :=
  if isEmpty term then (Some kernelData, next)
  else filterTree kernelData term next.

(** One render of [App] after the state hooks were set: the memo is
    recomputed when [searchTerm] differs from the remembered dependency,
    and [KernelVisualizer] keeps its instance only under an unchanged key. *)
Definition renderApp (st : AppState) : AppState :=
  let '(data, next) :=
    if strEq (memoTerm st) (searchTerm st)
    then (filteredData st, heapNext st)
    else computeFiltered (searchTerm st) (heapNext st) in
  let view :=
    match data with
    | Some d =>
        let old :=
          match mounted st with
          | Some (k, inst) =>
              if k =? visualizerKey st then Some inst else None
          | None => None
          end in
        Some (visualizerKey st,
              renderTreeNode d true (negb (isEmpty (searchTerm st))) old)
    | None => None
    end in
  mkApp (searchTerm st) (visualizerKey st) (selectedNode st)
    (selectedNodePath st) (searchTerm st) data next view.

(** The first render. *)
Definition initialState (next : nat) : AppState :=
  mkApp [] 0 None [] [] (Some kernelData) next
    (Some (0, renderTreeNode kernelData true false None)).

Definition handleSearchChange (value : jsstring) (st : AppState)
  : AppState :=
  renderApp
    (mkApp value (visualizerKey st) None [] (memoTerm st) (filteredData st)
       (heapNext st) (mounted st)).

Definition handleNodeSelect (node : KernelNode) (st : AppState) : AppState :=
  renderApp
    (mkApp (searchTerm st) (visualizerKey st) (Some node)
       (findNodePath kernelData node) (memoTerm st) (filteredData st)
       (heapNext st) (mounted st)).

Definition handleCollapseAll (st : AppState) : AppState :=
  renderApp
    (mkApp [] (S (visualizerKey st)) None [] (memoTerm st) (filteredData st)
       (heapNext st) (mounted st)).

(** [handleInteraction] of the [TreeNode] at [path]:
    [onNodeSelect(node)], then the toggle when the node is a directory. *)
Definition handleInteraction (path : list nat) (st : AppState) : AppState :=
  match mounted st with
  | Some (k, root) =>
      match instanceAt path root with
      | Some target =>
          let root' :=
            if isDirectory (inode target) then toggleAt path root
            else root in
          renderApp
            (mkApp (searchTerm st) (visualizerKey st)
               (Some (inode target))
               (findNodePath kernelData (inode target))
               (memoTerm st) (filteredData st) (heapNext st)
               (Some (k, root')))
      | None => st
      end
  | None => st
  end.

Definition step (st : AppState) (e : Event) : AppState :=
  match e with
  | SearchChange value => handleSearchChange value st
  | CollapseAll => handleCollapseAll st
  | Interact path => handleInteraction path st
  | Breadcrumb index =>
      match nth_error (selectedNodePath st) index with
      | Some p => handleNodeSelect p st
      | None => st
      end
  end.

Definition run (st : AppState) (events : list Event) : AppState :=
  fold_left step events st.

(** The root [TreeNode] is mounted and its state is expanded. *)
Definition rootExpanded (st : AppState) : bool :=
  match mounted st with
  | Some (_, root) => isExpanded root
  | None => false
  end.

(** The "No results found" block is what the tree column shows. *)
Definition showsNoResults (st : AppState) : bool :=
  match mounted st with
  | Some _ => false
  | None => true
  end.

End App.

(* ================================================================== *)
(** * The detail panel ([DetailPanel] in [App.tsx]) *)
(* ================================================================== *)

Definition slash : ascii := "/"%char.

(** [name.replace(/\/$/, '')]: the expression has no [g] and no [m] flag,
    so it removes one slash, and only at the end of the string. *)
Fixpoint stripTrailingSlash (s : jsstring) : jsstring :=
  match s with
  | [] => []
  | [c] => if Ascii.eqb c slash then [] else [c]
  | c :: r => c :: stripTrailingSlash r
  end.

(** [p.name.replace(/\/$/, '') || 'linux']. *)
Definition crumbLabel (name : jsstring) : jsstring :=
  let stripped := stripTrailingSlash name in
  if isEmpty stripped then lit "linux" else stripped.

(** What the breadcrumb renders: a button that selects [target] on click,
    or the separator [<span>/</span>]. *)
Inductive Crumb : Type :=
| CrumbButton (target : KernelNode) (label : jsstring)
| CrumbSeparator.

(** [path.map((p, index) => ...)] from [index] on; [len] is
    [path.length]. *)
Fixpoint crumbsFrom (l : list KernelNode) (index len : nat) : list Crumb :=
  match l with
  | [] => []
  | p :: rest =>
      CrumbButton p (crumbLabel (name p))
        :: (if index <? len - 1 then [CrumbSeparator] else [])
        ++ crumbsFrom rest (S index) len
  end.

Definition breadcrumb (path : list KernelNode) : list Crumb :=
  crumbsFrom path 0 (length path).

(** The rendered panel: the placeholder, or the breadcrumb, the kind of
    icon, the highlighted name and the highlighted description. *)
Inductive Panel : Type :=
| Placeholder
| Details (crumbs : list Crumb) (directoryIcon : bool)
    (title body : Rendered).

Definition DetailPanel (node : option KernelNode) (path : list KernelNode)
  (term : jsstring) : Panel :=
  match node with
  | None => Placeholder
  | Some n =>
      Details (breadcrumb path) (isDirectory n)
        (HighlightText (name n) term AsSpan)
        (HighlightText (description n) term AsP)
  end.

(** The panel as [App] renders it. *)
Definition panelOf (st : AppState) : Panel :=
  DetailPanel (selectedNode st) (selectedNodePath st) (searchTerm st).

(* ================================================================== *)
(** * A sample tree *)
(* ================================================================== *)

Module Sample.

Definition nodeB : KernelNode :=
  mkNode 2 (lit "sched.c") (lit "scheduler") (lit "CPU scheduler") None.

Definition nodeA : KernelNode :=
  mkNode 1 (lit "kernel") (lit "core") [] (Some [nodeB]).

Definition nodeC : KernelNode :=
  mkNode 3 (lit "mm") (lit "memory") [] (Some []).

Definition root : KernelNode :=
  mkNode 0 (lit "linux") [] [] (Some [nodeA; nodeC]).

(** The first free object identity once the sample tree is built. *)
Definition heap0 : nat := 4.

(** The objects that [filterTree(root, "sched")] makes, counter at
    [heap0]: children first, then their parent. *)
Definition filteredB : KernelNode :=
  mkNode 4 (lit "sched.c") (lit "scheduler") (lit "CPU scheduler") None.

Definition filteredA : KernelNode :=
  mkNode 5 (lit "kernel") (lit "core") [] (Some [filteredB]).

Definition filteredRoot : KernelNode :=
  mkNode 6 (lit "linux") [] [] (Some [filteredA]).

(** A text of two lines, "a" and "b". *)
Definition twoLines : jsstring := ["a"%char; newline; "b"%char].

End Sample.

(* ================================================================== *)
(** * Vocabulary of the statements *)
(* ================================================================== *)

(** The self-match test of [filterTree] for the term as the caller gives
    it: the term is lower-cased and trimmed before the comparison. *)
Definition selfMatch (node : KernelNode) (term : jsstring) : bool :=
  isMatch node (trim (toLowerCase term)).

(** The fields of [node] contain [term] itself, compared without case. *)
Definition containsTerm (node : KernelNode) (term : jsstring) : bool :=
  isMatch node (toLowerCase term).

(** Survival as the specification words it: a node survives when it
    matches itself or one of its children survives. *)
Fixpoint survivesSpec (lowerCaseTerm : jsstring) (node : KernelNode)
  : bool :=
  isMatch node lowerCaseTerm ||
  match children node with
  | Some cs => existsb (survivesSpec lowerCaseTerm) cs
  | None => false
  end.

(** [filterTree(node, term)] is not [null]. *)
Definition keeps (term : jsstring) (node : KernelNode) : bool :=
  match fst (filterTree node term 0) with
  | Some _ => true
  | None => false
  end.

(** [r] is the object that [filterTree(c, term)] returns in some run. *)
Definition Built (term : jsstring) (c r : KernelNode) : Prop :=
  exists k, fst (filterTree c term k) = Some r.

(** [Present term n T R]: the node [n] of the tree [T] has its copy in [R],
    the result of filtering [T]; the copy is found by going down from the
    roots through children that are built from one another. *)
Inductive Present (term : jsstring)
  : KernelNode -> KernelNode -> KernelNode -> Prop :=
| present_here : forall T R, Present term T T R
| present_below : forall n T R c r,
    In c (childList T) -> In r (childList R) -> Built term c r ->
    Present term n c r -> Present term n T R.

(** Each element of the list is the parent of the next one. *)
Fixpoint chain (l : list KernelNode) : Prop :=
  match l with
  | a :: (b :: _) as rest => parentOf a b /\ chain rest
  | _ => True
  end.

(** [x === target]. *)
Definition identical (target x : KernelNode) : bool := sameObject x target.

(** The first node of [root], in pre-order, that is the object [target]. *)
Definition firstIdentical (root target : KernelNode) : option KernelNode :=
  find (identical target) (preorder root).

(** A string that starts with no white space. *)
Definition startsClean (s : jsstring) : Prop :=
  match s with
  | [] => True
  | c :: _ => isWhiteSpace c = false
  end.

(** No match of [term] in [plain ++ rest] starts inside [plain]. *)
Definition noMatchBefore (term plain rest : jsstring) : Prop :=
  forall i, i < length plain ->
    matchesAt term (skipn i (plain ++ rest)) = false.

(** The spans that [parts.map(highlightPart)] is meant to give: plain and
    matched in turn, starting with plain. *)
Fixpoint tagAlternately (parts : list jsstring) : list Span :=
  match parts with
  | [] => []
  | [p] => [mkSpan Plain p]
  | p :: m :: rest => mkSpan Plain p :: mkSpan Matched m :: tagAlternately rest
  end.

(** The memo cell holds what its function returns for the remembered
    term. *)
Definition memoOk (kernelData : KernelNode) (st : AppState) : Prop :=
  exists k, filteredData st = fst (computeFiltered kernelData (memoTerm st) k).

(** When a tree is shown, its root is expanded. *)
Definition rootOk (st : AppState) : Prop :=
  match mounted st with
  | Some (_, root) => isExpanded root = true
  | None => True
  end.

(** The tree as a value: the same texts and children, with the identities
    of the objects left out. *)
Fixpoint eraseIdent (n : KernelNode) : KernelNode :=
  mkNode 0 (name n) (summary n) (description n)
    match children n with
    | Some cs => Some (map eraseIdent cs)
    | None => None
    end.

(** The term is one that filters: its trimmed form is not empty. *)
Definition effective (term : jsstring) : Prop := isEmpty (trim term) = false.

(** What one call allocates: nothing when it returns [null], and otherwise
    one new object per node of the result, all distinct. *)
Definition allocated (k : nat) (res : option KernelNode * nat) : Prop :=
  match fst res with
  | Some r =>
      NoDup (map ident (preorder r)) /\
      snd res = k + length (preorder r) /\
      forall x, In x (preorder r) -> k <= ident x < snd res
  | None => snd res = k
  end.

(** The view is mounted under the current [key] of [KernelVisualizer]. *)
Definition keyOk (st : AppState) : Prop :=
  match mounted st with
  | Some (k, _) => k = visualizerKey st
  | None => True
  end.

(** A mounted [TreeNode] and its subtree are as a render leaves them: the
    children are mounted, one per child of the node and in their order,
    exactly under [isExpanded && isDirectory]. *)
Fixpoint settled (inst : Instance) : Prop :=
  match inst with
  | mkInstance n e ks =>
      (if e && isDirectory n then map inode ks = childList n else ks = [])
      /\
      (fix all (l : list Instance) : Prop :=
         match l with
         | [] => True
         | k :: l' => settled k /\ all l'
         end) ks
  end.

(** The conjunction that [settled] takes over the children. *)
Fixpoint allSettled (l : list Instance) : Prop :=
  match l with
  | [] => True
  | k :: l' => settled k /\ allSettled l'
  end.

(** The tree column shows the filtered data: a settled view whose root
    renders the data when there is some, the "No results" block when there
    is none. *)
Definition viewOk (st : AppState) : Prop :=
  match mounted st, filteredData st with
  | Some (_, root), Some d => inode root = d /\ settled root
  | None, None => True
  | _, _ => False
  end.

(** The breadcrumb is the path that [findNodePath] gave for the selected
    node, and empty when nothing is selected. *)
Definition selectionOk (kernelData : KernelNode) (st : AppState) : Prop :=
  match selectedNode st with
  | Some n => selectedNodePath st = findNodePath kernelData n
  | None => selectedNodePath st = []
  end.

(** What holds of every state the application can be in. *)
Definition appOk (kernelData : KernelNode) (st : AppState) : Prop :=
  memoOk kernelData st /\ memoTerm st = searchTerm st /\
  keyOk st /\ viewOk st /\ selectionOk kernelData st.

(** The view of a first mount without search: the root expanded, its
    children shown collapsed, nothing below them. *)
Definition defaultView (node : KernelNode) : Instance :=
  mkInstance node true
    (map (fun c => mkInstance c false []) (childList node)).

Section Instance_ind.
Variable P : Instance -> Prop.
Hypothesis P_inst : forall n e ks, Forall P ks -> P (mkInstance n e ks).

Fixpoint Instance_ind (inst : Instance) : P inst :=
  match inst with
  | mkInstance n e ks =>
      P_inst n e ks
        ((fix go (l : list Instance) : Forall P l :=
            match l with
            | [] => Forall_nil P
            | k :: l' => Forall_cons k (Instance_ind k) (go l')
            end) ks)
  end.
End Instance_ind.

(** The instance at [path] replaced by [new]. *)
Fixpoint replaceAt (path : list nat) (inst new : Instance) : Instance :=
  match path with
  | [] => new
  | i :: path' =>
      mkInstance (inode inst) (isExpanded inst)
        (updateNth (kids inst) i (fun k => replaceAt path' k new))
  end.

(** A directory after a click: collapsed with nothing mounted below it
    when it was expanded, and otherwise expanded with its children mounted
    afresh. *)
Definition toggled (startExpanded : bool) (target : Instance) : Instance :=
  if isExpanded target then mkInstance (inode target) false []
  else mkInstance (inode target) true
         (renderChildren startExpanded [] (childList (inode target)) 0).

(** The breadcrumb written out: a button per node, a separator before
    every button but the first. *)
Definition crumbsOf (path : list KernelNode) : list Crumb :=
  match path with
  | [] => []
  | p :: rest =>
      CrumbButton p (crumbLabel (name p))
        :: flat_map
             (fun q => [CrumbSeparator; CrumbButton q (crumbLabel (name q))])
             rest
  end.

(** All 256 code units of the model. *)
Definition allChars : list ascii := map ascii_of_nat (seq 0 256).

Definition isSome {A : Type} (o : option A) : bool :=
  match o with Some _ => true | None => false end.

(** The parts that [split] returns for a term that is not empty: plain
    text without any match, then a match, and so on, ending with plain
    text. *)
Inductive WellSplit (term : jsstring) : list jsstring -> Prop :=
| ws_last : forall p, findMatch term p = None -> WellSplit term [p]
| ws_more : forall p m rest,
    findMatch term p = None ->
    matchesAt term m = true -> length m = length term ->
    WellSplit term rest -> WellSplit term (p :: m :: rest).

(* ================================================================== *)
(** * Strings: case, white space and search *)
(* ================================================================== *)

Lemma in_allChars : forall c, In c allChars.
Proof.
  intro c. unfold allChars. rewrite <- (ascii_nat_embedding c).
  apply in_map, in_seq. pose proof (nat_ascii_bounded c). lia.
Qed.

Lemma forall_chars (P : ascii -> bool) :
  forallb P allChars = true -> forall c, P c = true.
Proof.
  intros H c. rewrite forallb_forall in H. apply H, in_allChars.
Qed.

Lemma isWhiteSpace_lower : forall c,
  isWhiteSpace (toLowerCaseChar c) = isWhiteSpace c.
Proof.
  intro c. apply Bool.eqb_prop.
  apply (forall_chars
           (fun c => Bool.eqb (isWhiteSpace (toLowerCaseChar c))
                       (isWhiteSpace c))).
  vm_compute. reflexivity.
Qed.

Lemma toLowerCaseChar_idem : forall c,
  toLowerCaseChar (toLowerCaseChar c) = toLowerCaseChar c.
Proof.
  intro c. apply Ascii.eqb_eq.
  apply (forall_chars
           (fun c => Ascii.eqb (toLowerCaseChar (toLowerCaseChar c))
                       (toLowerCaseChar c))).
  vm_compute. reflexivity.
Qed.



Lemma toLowerCase_idem : forall s,
  toLowerCase (toLowerCase s) = toLowerCase s.
Proof.
  intro s. unfold toLowerCase. rewrite map_map.
  apply map_ext. intro c. apply toLowerCaseChar_idem.
Qed.

Lemma trimStart_lower : forall s,
  trimStart (toLowerCase s) = toLowerCase (trimStart s).
Proof.
  induction s as [|c r IH]; simpl; [reflexivity|].
  rewrite isWhiteSpace_lower. destruct (isWhiteSpace c); [exact IH|reflexivity].
Qed.

Lemma trimEnd_lower : forall s,
  trimEnd (toLowerCase s) = toLowerCase (trimEnd s).
Proof.
  induction s as [|c r IH]; simpl; [reflexivity|].
  fold (toLowerCase r). rewrite IH, isWhiteSpace_lower.
  destruct (trimEnd r) as [|x r']; simpl.
  - destruct (isWhiteSpace c); reflexivity.
  - reflexivity.
Qed.

(** Trimming and lower-casing commute. *)
Lemma trim_lower : forall s, trim (toLowerCase s) = toLowerCase (trim s).
Proof.
  intro s. unfold trim. rewrite trimStart_lower. apply trimEnd_lower.
Qed.

Lemma trimEnd_idem : forall s, trimEnd (trimEnd s) = trimEnd s.
Proof.
  induction s as [|c r IH]; simpl; [reflexivity|].
  destruct (trimEnd r) as [|x r'] eqn:E.
  - destruct (isWhiteSpace c) eqn:W; simpl; [reflexivity|].
    rewrite W. reflexivity.
  - simpl in *. rewrite IH. reflexivity.
Qed.

Lemma trimStart_clean : forall s, startsClean (trimStart s).
Proof.
  induction s as [|c r IH]; simpl; [exact I|].
  destruct (isWhiteSpace c) eqn:W; [exact IH|exact W].
Qed.

Lemma trimStart_fix : forall s, startsClean s -> trimStart s = s.
Proof.
  intros [|c r] H; simpl in *; [reflexivity|]. rewrite H. reflexivity.
Qed.

Lemma trimEnd_clean : forall s, startsClean s -> startsClean (trimEnd s).
Proof.
  intros [|c r] H; simpl in *; [exact I|].
  destruct (trimEnd r); [rewrite H|]; exact H.
Qed.

Lemma trim_idem : forall s, trim (trim s) = trim s.
Proof.
  intro s. unfold trim.
  rewrite trimStart_fix by apply trimEnd_clean, trimStart_clean.
  apply trimEnd_idem.
Qed.

(** The term that [filterTree] passes to its recursive calls is left
    unchanged by the normalisation at the head of the function. *)
Lemma lowerCaseTerm_idem : forall term,
  trim (toLowerCase (trim (toLowerCase term))) = trim (toLowerCase term).
Proof.
  intro term. rewrite (trim_lower (trim (toLowerCase term))).
  rewrite trim_idem, <- trim_lower, toLowerCase_idem. reflexivity.
Qed.

Lemma isEmpty_lowerCaseTerm : forall term,
  isEmpty (trim (toLowerCase term)) = isEmpty (trim term).
Proof.
  intro term. rewrite trim_lower. destruct (trim term); reflexivity.
Qed.

(* ================================================================== *)
(** * [filterTree]: unfolding and allocation *)
(* ================================================================== *)

Lemma filterTree_unfold : forall node term next,
  filterTree node term next =
  let lowerCaseTerm := trim (toLowerCase term) in
  if isEmpty lowerCaseTerm then (Some node, next)
  else
    let '(filteredChildren, next1) :=
      filteredChildrenOf node lowerCaseTerm next in
    if isMatch node lowerCaseTerm || nonEmptyChildren filteredChildren
    then (Some (mkNode next1 (name node) (summary node) (description node)
                  filteredChildren), S next1)
    else (None, next1).
Proof.
  intros [i n s d [cs|]] term next; reflexivity.
Qed.

Lemma mapFilterTree_cons : forall lct child rest k,
  mapFilterTree lct (child :: rest) k =
  let '(r, k1) := filterTree child lct k in
  let '(rs, k2) := mapFilterTree lct rest k1 in
  (r :: rs, k2).
Proof. reflexivity. Qed.

(** The recursive calls see the term already normalised, so filtering by
    the raw term and by the normalised one is the same computation. *)
Lemma filterTree_normalised : forall node term next,
  filterTree node (trim (toLowerCase term)) next = filterTree node term next.
Proof.
  intros node term next. rewrite (filterTree_unfold node term).
  rewrite filterTree_unfold. cbv zeta. rewrite lowerCaseTerm_idem.
  reflexivity.
Qed.

Section NormalisedTerm.

(** A term as the recursive calls of [filterTree] receive it. *)
Variable lct : jsstring.
Hypothesis lct_normal : trim (toLowerCase lct) = lct.
Hypothesis lct_nonempty : isEmpty lct = false.

Lemma filterTree_step : forall node k,
  filterTree node lct k =
  let '(fc, k1) := filteredChildrenOf node lct k in
  if isMatch node lct || nonEmptyChildren fc
  then (Some (mkNode k1 (name node) (summary node) (description node) fc),
        S k1)
  else (None, k1).
Proof.
  intros node k. rewrite filterTree_unfold. cbv zeta.
  rewrite lct_normal, lct_nonempty. reflexivity.
Qed.

Lemma nonEmpty_mapped : forall cs,
  Forall (fun c => forall k,
            isSome (fst (filterTree c lct k)) = survivesSpec lct c) cs ->
  forall k,
    nonEmptyChildren (Some (filterNotNull (fst (mapFilterTree lct cs k)))) =
    existsb (survivesSpec lct) cs.
Proof.
  induction 1 as [|c cs Hc _ IH]; intro k; [reflexivity|].
  rewrite mapFilterTree_cons. specialize (Hc k).
  destruct (filterTree c lct k) as [r k1].
  specialize (IH k1).
  destruct (mapFilterTree lct cs k1) as [rs k2]. simpl in *.
  rewrite <- Hc. destruct r as [r|]; simpl; [reflexivity|exact IH].
Qed.

(** [filterTree] keeps a node exactly when the specification's recursive
    test holds, whatever the allocation counter. *)
Lemma filterTree_survivesSpec : forall node k,
  isSome (fst (filterTree node lct k)) = survivesSpec lct node.
Proof.
  induction node as [i n s d|i n s d cs IH] using KernelNode_ind;
    intro k; rewrite filterTree_step; unfold filteredChildrenOf; simpl.
  - rewrite !orb_false_r.
    destruct (isMatch _ lct); reflexivity.
  - pose proof (nonEmpty_mapped cs IH k) as Hne.
    destruct (mapFilterTree lct cs k) as [mapped k1]. simpl in Hne.
    rewrite <- Hne.
    destruct (isMatch _ lct || _); reflexivity.
Qed.

(** The counter only grows, and every object of the result is new. *)
Lemma filterTree_fresh : forall node k r k',
  filterTree node lct k = (Some r, k') ->
  k <= k' /\ forall x, In x (preorder r) -> k <= ident x < k'.
Proof.
  assert (Hmono : forall node k, k <= snd (filterTree node lct k)
            /\ forall r x, fst (filterTree node lct k) = Some r ->
                 In x (preorder r) ->
                 k <= ident x < snd (filterTree node lct k)).
  { induction node as [i n s d|i n s d cs IH] using KernelNode_ind;
      intro k; rewrite filterTree_step; unfold filteredChildrenOf; simpl.
    - destruct (isMatch _ lct || false); simpl; split; try lia.
      + intros r x [= <-] [<-|[]]. simpl. lia.
      + intros r x [=].
    - assert (Hl : forall k, k <= snd (mapFilterTree lct cs k) /\
               forall r x, In r (filterNotNull (fst (mapFilterTree lct cs k)))
                 -> In x (preorder r) ->
                 k <= ident x < snd (mapFilterTree lct cs k)).
      { clear k. induction IH as [|c cs Hc _ IHcs]; intro k.
        - simpl. split; [lia|]. intros r x [].
        - rewrite mapFilterTree_cons. specialize (Hc k).
          destruct (filterTree c lct k) as [rc k1].
          specialize (IHcs k1).
          destruct (mapFilterTree lct cs k1) as [rs k2]. simpl in *.
          destruct Hc as [Hk Hc]. destruct IHcs as [Hk1 Hrs].
          split; [lia|]. intros r x Hr Hx.
          destruct rc as [rc|]; simpl in Hr.
          + destruct Hr as [<-|Hr].
            * specialize (Hc rc x eq_refl Hx). lia.
            * specialize (Hrs r x Hr Hx). lia.
          + specialize (Hrs r x Hr Hx). lia. }
      specialize (Hl k).
      destruct (mapFilterTree lct cs k) as [mapped k1]. simpl in Hl.
      destruct Hl as [Hk Hl].
      destruct (isMatch _ lct || _); simpl; split; try lia.
      + intros r x [= <-] Hx. simpl in Hx. destruct Hx as [<-|Hx].
        * simpl. lia.
        * apply in_flat_map in Hx. destruct Hx as [c [Hc Hx]].
          specialize (Hl c x Hc Hx). lia.
      + intros r x [=]. }
  intros node k r k' H. destruct (Hmono node k) as [H1 H2].
  rewrite H in *. simpl in *. split; [exact H1|].
  intros x Hx. exact (H2 r x eq_refl Hx).
Qed.

End NormalisedTerm.

(* ================================================================== *)
(** * [filterTree]: which nodes survive, and in which order *)
(* ================================================================== *)

Section Survival.

Variable lct : jsstring.
Hypothesis lct_normal : trim (toLowerCase lct) = lct.
Hypothesis lct_nonempty : isEmpty lct = false.

Lemma keeps_survivesSpec : forall c, keeps lct c = survivesSpec lct c.
Proof.
  intro c. unfold keeps.
  rewrite <- (filterTree_survivesSpec lct lct_normal lct_nonempty c 0).
  destruct (fst (filterTree c lct 0)); reflexivity.
Qed.

Lemma built_survives : forall c r, Built lct c r -> survivesSpec lct c = true.
Proof.
  intros c r [k Hk].
  rewrite <- (filterTree_survivesSpec lct lct_normal lct_nonempty c k), Hk.
  reflexivity.
Qed.

(** The filtered children are the results for the surviving children, in
    the order of the source. *)
Lemma mapped_order : forall cs k,
  Forall2 (Built lct) (filter (survivesSpec lct) cs)
    (filterNotNull (fst (mapFilterTree lct cs k))).
Proof.
  induction cs as [|c cs IH]; intro k; [constructor|].
  rewrite mapFilterTree_cons.
  pose proof (filterTree_survivesSpec lct lct_normal lct_nonempty c k) as Hc.
  destruct (filterTree c lct k) as [rc k1] eqn:E.
  specialize (IH k1).
  destruct (mapFilterTree lct cs k1) as [rs k2]. simpl in *.
  rewrite <- Hc. destruct rc as [rc|]; simpl; [|exact IH].
  constructor; [|exact IH]. exists k. rewrite E. reflexivity.
Qed.

(** Every child is filtered at some counter, and what that call returns is
    among the filtered children. *)
Lemma mapped_member : forall cs k c,
  In c cs ->
  exists kc, forall r,
    fst (filterTree c lct kc) = Some r ->
    In r (filterNotNull (fst (mapFilterTree lct cs k))).
Proof.
  induction cs as [|c0 cs IH]; intros k c Hin; [destruct Hin|].
  rewrite mapFilterTree_cons.
  destruct (filterTree c0 lct k) as [r0 k1] eqn:E.
  destruct Hin as [<-|Hin].
  - exists k. intros r Hr. rewrite E in Hr. simpl in Hr. subst r0.
    destruct (mapFilterTree lct cs k1). simpl. left. reflexivity.
  - destruct (IH k1 c Hin) as [kc Hkc]. exists kc. intros r Hr.
    specialize (Hkc r Hr).
    destruct (mapFilterTree lct cs k1) as [rs k2]. simpl in *.
    destruct r0; simpl; auto.
Qed.

(** The shape of a result: the texts of the source and the filtered
    children. *)
Lemma built_shape : forall n r,
  Built lct n r ->
  name r = name n /\ summary r = summary n /\
  description r = description n /\
  Forall2 (Built lct) (filter (survivesSpec lct) (childList n))
    (childList r).
Proof.
  intros n r [k Hk].
  rewrite (filterTree_step lct lct_normal lct_nonempty) in Hk.
  unfold filteredChildrenOf, childList in *.
  destruct (children n) as [cs|] eqn:Ec.
  - pose proof (mapped_order cs k) as Ho.
    destruct (mapFilterTree lct cs k) as [mapped k1]. simpl in *.
    destruct (isMatch n lct || _); simpl in Hk; [|discriminate].
    injection Hk as <-. simpl. auto.
  - destruct (isMatch n lct || _); simpl in Hk; [|discriminate].
    injection Hk as <-. simpl. repeat split. constructor.
Qed.

Lemma survivesSpec_unfold : forall n,
  survivesSpec lct n =
  isMatch n lct || existsb (survivesSpec lct) (childList n).
Proof. intros [i n s d [cs|]]; reflexivity. Qed.

(** A node of the result is the copy of a node that survives. *)
Lemma present_survives : forall n T R,
  Present lct n T R -> Built lct T R -> survivesSpec lct n = true.
Proof.
  induction 1 as [T R|n T R c r _ _ Hb _ IH]; intro HB.
  - exact (built_survives T R HB).
  - exact (IH Hb).
Qed.

(** A surviving node of [T] has its copy in the result for [T], which is
    therefore not [null]. *)
Lemma survivor_present : forall n T,
  In n (preorder T) -> survivesSpec lct n = true ->
  forall k, exists R,
    fst (filterTree T lct k) = Some R /\ Present lct n T R.
Proof.
  intros n T. revert n.
  induction T as [i nm s d|i nm s d cs IH] using KernelNode_ind;
    intros n Hin Hs k.
  - destruct Hin as [<-|[]].
    pose proof (filterTree_survivesSpec lct lct_normal lct_nonempty
                  (mkNode i nm s d None) k) as H.
    rewrite Hs in H. destruct (fst (filterTree _ lct k)) as [R|] eqn:E;
      [|discriminate].
    exists R. split; [reflexivity|constructor].
  - destruct Hin as [<-|Hin].
    + pose proof (filterTree_survivesSpec lct lct_normal lct_nonempty
                    (mkNode i nm s d (Some cs)) k) as H.
      rewrite Hs in H. destruct (fst (filterTree _ lct k)) as [R|] eqn:E;
        [|discriminate].
      exists R. split; [reflexivity|constructor].
    + simpl in Hin. apply in_flat_map in Hin. destruct Hin as [c [Hc Hn]].
      rewrite Forall_forall in IH.
      destruct (mapped_member cs k c Hc) as [kc Hkc].
      destruct (IH c Hc n Hn Hs kc) as [r [Hr Hp]].
      specialize (Hkc r Hr).
      rewrite (filterTree_step lct lct_normal lct_nonempty).
      unfold filteredChildrenOf. simpl.
      destruct (mapFilterTree lct cs k) as [mapped k1]. simpl in Hkc.
      assert (Hne : nonEmptyChildren (Some (filterNotNull mapped)) = true).
      { simpl. destruct (filterNotNull mapped); [destruct Hkc|reflexivity]. }
      rewrite Hne, orb_true_r. simpl. eexists. split; [reflexivity|].
      apply present_below with (c := c) (r := r); simpl; auto.
      exists kc. exact Hr.
Qed.

End Survival.

Lemma Built_normalised : forall s c r,
  Built (trim (toLowerCase s)) c r <-> Built s c r.
Proof.
  intros s c r. unfold Built.
  split; intros [k H]; exists k.
  - rewrite <- filterTree_normalised. exact H.
  - rewrite filterTree_normalised. exact H.
Qed.

Lemma Present_normalised : forall s n T R,
  Present (trim (toLowerCase s)) n T R <-> Present s n T R.
Proof.
  intros s n T R. split; induction 1 as [T R|n T R c r Hc Hr Hb _ IH].
  - constructor.
  - apply present_below with (c := c) (r := r); auto.
    apply Built_normalised. exact Hb.
  - constructor.
  - apply present_below with (c := c) (r := r); auto.
    apply Built_normalised. exact Hb.
Qed.

Lemma keeps_normalised : forall s c,
  keeps (trim (toLowerCase s)) c = keeps s c.
Proof. intros s c. unfold keeps. rewrite filterTree_normalised. reflexivity. Qed.

Lemma Forall2_ext_rel : forall (A B : Type) (P Q : A -> B -> Prop) l1 l2,
  (forall a b, P a b -> Q a b) -> Forall2 P l1 l2 -> Forall2 Q l1 l2.
Proof. intros A B P Q l1 l2 H. induction 1; constructor; auto. Qed.

(** The survival test of a node, for the term as the caller gives it. *)
Lemma keeps_iff : forall s n,
  isEmpty (trim s) = false ->
  keeps s n = true <->
  (selfMatch n s = true \/ exists c, parentOf n c /\ keeps s c = true).
Proof.
  intros s n Hs. set (lct := trim (toLowerCase s)).
  assert (Hn : trim (toLowerCase lct) = lct) by apply lowerCaseTerm_idem.
  assert (He : isEmpty lct = false)
    by (unfold lct; rewrite isEmpty_lowerCaseTerm; exact Hs).
  rewrite <- (keeps_normalised s n). fold lct.
  rewrite (keeps_survivesSpec lct Hn He), (survivesSpec_unfold lct n).
  rewrite orb_true_iff, existsb_exists. unfold selfMatch, parentOf. fold lct.
  split; (intros [H|[c [Hc Hk]]]; [left; exact H|right; exists c; split; auto]).
  - rewrite <- keeps_normalised. fold lct.
    rewrite (keeps_survivesSpec lct Hn He). exact Hk.
  - rewrite <- keeps_normalised in Hk. fold lct in Hk.
    rewrite (keeps_survivesSpec lct Hn He) in Hk. exact Hk.
Qed.

(** Presence in the result is survival. *)
Lemma present_iff_keeps : forall T s k n,
  isEmpty (trim s) = false -> In n (preorder T) ->
  (exists R, fst (filterTree T s k) = Some R /\ Present s n T R) <->
  keeps s n = true.
Proof.
  intros T s k n Hs Hin. set (lct := trim (toLowerCase s)).
  assert (Hn : trim (toLowerCase lct) = lct) by apply lowerCaseTerm_idem.
  assert (He : isEmpty lct = false)
    by (unfold lct; rewrite isEmpty_lowerCaseTerm; exact Hs).
  rewrite <- (keeps_normalised s n). fold lct.
  rewrite (keeps_survivesSpec lct Hn He). split.
  - intros [R [HR HP]]. apply Present_normalised in HP. fold lct in HP.
    apply (present_survives lct Hn He n T R HP). exists k. fold lct.
    unfold lct. rewrite filterTree_normalised. exact HR.
  - intro Hsv. destruct (survivor_present lct Hn He n T Hin Hsv k) as [R [HR HP]].
    exists R. split.
    + unfold lct in HR. rewrite filterTree_normalised in HR. exact HR.
    + apply Present_normalised. exact HP.
Qed.

Lemma no_match_no_survivor : forall lct T,
  (forall n, In n (preorder T) -> isMatch n lct = false) ->
  survivesSpec lct T = false.
Proof.
  intros lct.
  induction T as [i nm s d|i nm s d cs IH] using KernelNode_ind; intro H.
  - simpl. rewrite (H _ (or_introl eq_refl)). reflexivity.
  - simpl. rewrite (H _ (or_introl eq_refl)). simpl.
    apply not_true_is_false. intro Hex.
    apply existsb_exists in Hex. destruct Hex as [c [Hc Hs]].
    rewrite Forall_forall in IH. rewrite IH in Hs; [discriminate|exact Hc|].
    intros n Hn. apply H. right. simpl. apply in_flat_map. eauto.
Qed.

Lemma filterTree_no_match : forall T s k,
  isEmpty (trim s) = false ->
  (forall n, In n (preorder T) -> selfMatch n s = false) ->
  fst (filterTree T s k) = None.
Proof.
  intros T s k Hs H. set (lct := trim (toLowerCase s)).
  assert (Hn : trim (toLowerCase lct) = lct) by apply lowerCaseTerm_idem.
  assert (He : isEmpty lct = false)
    by (unfold lct; rewrite isEmpty_lowerCaseTerm; exact Hs).
  rewrite <- filterTree_normalised. fold lct.
  pose proof (filterTree_survivesSpec lct Hn He T k) as Hk.
  rewrite (no_match_no_survivor lct T H) in Hk.
  destruct (fst (filterTree T lct k)); [discriminate|reflexivity].
Qed.

(** The scenarios of the specification. *)
Example filterTree_sched :
  filterTree Sample.root (lit "sched") Sample.heap0 =
  (Some Sample.filteredRoot, 7).
Proof. reflexivity. Qed.

Example filterTree_zzz :
  filterTree Sample.root (lit "zzz") Sample.heap0 = (None, Sample.heap0).
Proof. reflexivity. Qed.

(** C1 (amended).  For every tree [T], every term [s] whose trimmed form is
    not empty and every node [n] of [T]: [n] has its copy in the result of
    [filterTree(T, s)] if and only if the name, summary or description of
    [n] contains the lower-cased, trimmed term, or one of the children of
    [n] survives filtering; and the copy of a node has the texts of the node
    and, as children, the copies of the surviving children in the order of
    the source. *)
Theorem filterTree_presence : forall T s k n,
  isEmpty (trim s) = false -> In n (preorder T) ->
  ((exists R, fst (filterTree T s k) = Some R /\ Present s n T R) <->
   (selfMatch n s = true \/
    exists c, parentOf n c /\ keeps s c = true))
  /\
  (forall r, Built s n r ->
     name r = name n /\ summary r = summary n /\
     description r = description n /\
     Forall2 (Built s) (filter (keeps s) (childList n)) (childList r)).
Proof.
  intros T s k n Hs Hin. split.
  - rewrite (present_iff_keeps T s k n Hs Hin). apply keeps_iff. exact Hs.
  - intros r Hb. set (lct := trim (toLowerCase s)).
    assert (Hn : trim (toLowerCase lct) = lct) by apply lowerCaseTerm_idem.
    assert (He : isEmpty lct = false)
      by (unfold lct; rewrite isEmpty_lowerCaseTerm; exact Hs).
    apply Built_normalised in Hb. fold lct in Hb.
    destruct (built_shape lct Hn He n r Hb) as (H1 & H2 & H3 & H4).
    repeat split; auto.
    rewrite (filter_ext (keeps s) (survivesSpec lct)).
    + apply Forall2_ext_rel with (P := Built lct); [|exact H4].
      intros a b. apply Built_normalised.
    + intro c. rewrite <- keeps_normalised. fold lct.
      apply (keeps_survivesSpec lct Hn He).
Qed.

Lemma filterTree_presence_witness :
  isEmpty (trim (lit "sched")) = false /\
  In Sample.nodeB (preorder Sample.root) /\
  ((exists R, fst (filterTree Sample.root (lit "sched") Sample.heap0) = Some R
              /\ Present (lit "sched") Sample.nodeB Sample.root R) <->
   (selfMatch Sample.nodeB (lit "sched") = true \/
    exists c, parentOf Sample.nodeB c /\ keeps (lit "sched") c = true)).
Proof.
  split; [reflexivity|]. split; [simpl; auto|].
  apply (filterTree_presence Sample.root (lit "sched") Sample.heap0
           Sample.nodeB); [reflexivity|simpl; auto].
Defined.

(** C1 as stated fails: with the term "sched " (a trailing space) the node
    sched.c is in the result, yet none of its texts contains "sched " and it
    has no child. *)
Lemma filterTree_compares_trimmed_term :
  let s := lit "sched " in
  isEmpty (trim s) = false /\
  In Sample.nodeB (preorder Sample.root) /\
  ~ ((exists R, fst (filterTree Sample.root s Sample.heap0) = Some R
                /\ Present s Sample.nodeB Sample.root R) <->
     (containsTerm Sample.nodeB s = true \/
      exists c, parentOf Sample.nodeB c /\ keeps s c = true)).
Proof.
  cbv zeta. split; [reflexivity|]. split; [simpl; auto|].
  intros [H _].
  assert (Hp : exists R,
             fst (filterTree Sample.root (lit "sched ") Sample.heap0) = Some R
             /\ Present (lit "sched ") Sample.nodeB Sample.root R).
  { apply present_iff_keeps; [reflexivity|simpl; auto|reflexivity]. }
  destruct (H Hp) as [Hc|[c [Hc _]]].
  - vm_compute in Hc. discriminate.
  - destruct Hc.
Qed.

(** C8.  A term whose trimmed form is empty makes [filterTree] return its
    argument itself: the same object, and nothing is allocated. *)
Theorem filterTree_empty_term : forall T term k,
  isEmpty (trim term) = true -> filterTree T term k = (Some T, k).
Proof.
  intros T term k H. rewrite filterTree_unfold. cbv zeta.
  rewrite isEmpty_lowerCaseTerm, H. reflexivity.
Qed.

Lemma filterTree_empty_term_witness :
  isEmpty (trim (lit "  ")) = true /\
  filterTree Sample.root (lit "  ") Sample.heap0 =
  (Some Sample.root, Sample.heap0).
Proof.
  split; [reflexivity|].
  apply (filterTree_empty_term Sample.root (lit "  ") Sample.heap0).
  reflexivity.
Defined.

(* ================================================================== *)
(** * [findNodePath] *)
(* ================================================================== *)

Lemma search_unfold : forall target node p,
  search target node p =
  let path := p ++ [node] in
  if sameObject node target then (true, path)
  else
    let '(found, path1) :=
      match children node with
      | Some cs => searchChildren target cs path
      | None => (false, path)
      end in
    if found then (true, path1) else (false, removelast path1).
Proof. intros target [i n s d [cs|]] p; reflexivity. Qed.

Lemma find_over_app : forall (A : Type) (f : A -> bool) l1 l2,
  find f (l1 ++ l2) =
  match find f l1 with
  | Some x => Some x
  | None => find f l2
  end.
Proof.
  intros A f l1 l2. induction l1 as [|a l1 IH]; simpl; [reflexivity|].
  destruct (f a); [reflexivity|exact IH].
Qed.

Lemma last_default : forall (A : Type) (l : list A) a d1 d2,
  last (a :: l) d1 = last (a :: l) d2.
Proof.
  intros A l. induction l as [|b l IH]; intros a d1 d2; [reflexivity|].
  change (last (b :: l) d1 = last (b :: l) d2). apply IH.
Qed.

Section Search.

Variable target : KernelNode.

(** What [search] does with the array: nothing when no node of the subtree
    is the target, and otherwise it leaves on it the chain of parents from
    the subtree's root to the first identical node in pre-order. *)
Lemma search_spec : forall node p,
  match find (identical target) (preorder node) with
  | None => search target node p = (false, p)
  | Some x =>
      exists q, search target node p = (true, p ++ node :: q) /\
                chain (node :: q) /\ last (node :: q) node = x
  end.
Proof.
  induction node as [i n s d|i n s d cs IH] using KernelNode_ind; intro p;
    rewrite search_unfold; cbv zeta; simpl preorder; simpl find;
    unfold identical at 1; simpl children.
  - destruct (sameObject _ target).
    + exists []. simpl. auto.
    + rewrite removelast_last. reflexivity.
  - destruct (sameObject _ target).
    + exists []. simpl. auto.
    + set (node := mkNode i n s d (Some cs)).
      assert (Hcs : forall p,
        match find (identical target) (flat_map preorder cs) with
        | None => searchChildren target cs p = (false, p)
        | Some x =>
            exists c q, In c cs /\
              searchChildren target cs p = (true, p ++ c :: q) /\
              chain (c :: q) /\ last (c :: q) c = x
        end).
      { clear p. induction IH as [|c cs Hc _ IHcs]; intro p;
          [reflexivity|].
        simpl flat_map. rewrite find_over_app.
        change (searchChildren target (c :: cs) p)
          with (let '(b, p1) := search target c p in
                if b then (true, p1) else searchChildren target cs p1).
        specialize (Hc p).
        destruct (find (identical target) (preorder c)) as [x|].
        - destruct Hc as [q [Hq [Hch Hl]]]. rewrite Hq.
          exists c, q. simpl In. auto.
        - rewrite Hc. specialize (IHcs p).
          destruct (find (identical target) (flat_map preorder cs)) as [x|].
          + destruct IHcs as [c' [q [Hin H]]]. exists c', q.
            split; [right; exact Hin|exact H].
          + exact IHcs. }
      specialize (Hcs (p ++ [node])).
      destruct (find (identical target) (flat_map preorder cs)) as [x|].
      * destruct Hcs as [c [q [Hin [Hq [Hch Hl]]]]]. rewrite Hq.
        exists (c :: q).
        split; [f_equal; symmetry; exact (app_assoc p [node] (c :: q))|].
        split.
        -- split; [exact Hin|exact Hch].
        -- rewrite <- Hl.
           change (last (c :: q) node = last (c :: q) c).
           apply last_default.
      * rewrite Hcs. rewrite removelast_last. reflexivity.
Qed.

End Search.

(** [findNodePath] on a target that is no object of the tree. *)
Lemma findNodePath_not_found : forall root target,
  firstIdentical root target = None -> findNodePath root target = [].
Proof.
  intros root target H. unfold findNodePath, firstIdentical in *.
  pose proof (search_spec target root []) as S. cbv zeta in S.
  rewrite H in S. rewrite S. reflexivity.
Qed.

(** [findNodePath] stops at the first identical node in pre-order. *)
Lemma findNodePath_first_identical : forall root target x,
  firstIdentical root target = Some x ->
  exists q, findNodePath root target = root :: q /\
            chain (root :: q) /\ last (root :: q) root = x.
Proof.
  intros root target x H. unfold findNodePath, firstIdentical in *.
  pose proof (search_spec target root []) as S. cbv zeta in S.
  rewrite H in S. destruct S as [q [Hq Hrest]]. rewrite Hq.
  exists q. split; [reflexivity|exact Hrest].
Qed.

Lemma find_unique_ident : forall (l : list KernelNode) N,
  NoDup (map ident l) -> In N l ->
  find (identical N) l = Some N.
Proof.
  induction l as [|a l IH]; intros N Hnd Hin; [destruct Hin|].
  simpl in *. inversion Hnd as [|? ? Hnot Hnd']; subst.
  unfold identical at 1, sameObject. destruct Hin as [->|Hin].
  - rewrite Nat.eqb_refl. reflexivity.
  - destruct (ident a =? ident N) eqn:E.
    + apply Nat.eqb_eq in E. exfalso. apply Hnot. rewrite E.
      apply in_map. exact Hin.
    + apply IH; assumption.
Qed.

Example findNodePath_sched :
  findNodePath Sample.root Sample.nodeB =
  [Sample.root; Sample.nodeA; Sample.nodeB].
Proof. reflexivity. Qed.

(** C7.  In a well-formed tree with root [R], for every node [N] of the
    tree, [findNodePath(R, N)] starts at [R], ends at [N], each of its
    elements is the parent of the next, and its last element is the first
    node in depth-first pre-order that is identical to [N]. *)
Theorem findNodePath_valid : forall R N,
  wellFormed R -> In N (preorder R) ->
  hd_error (findNodePath R N) = Some R /\
  last (findNodePath R N) R = N /\
  chain (findNodePath R N) /\
  firstIdentical R N = Some (last (findNodePath R N) R).
Proof.
  intros R N Hwf Hin.
  assert (Hf : firstIdentical R N = Some N)
    by (apply find_unique_ident; assumption).
  destruct (findNodePath_first_identical R N N Hf) as [q [Hq [Hch Hl]]].
  rewrite Hq. simpl hd_error. rewrite Hl. auto.
Qed.

Lemma findNodePath_valid_witness :
  wellFormed Sample.root /\ In Sample.nodeB (preorder Sample.root) /\
  hd_error (findNodePath Sample.root Sample.nodeB) = Some Sample.root /\
  last (findNodePath Sample.root Sample.nodeB) Sample.root = Sample.nodeB.
Proof.
  assert (Hwf : wellFormed Sample.root).
  { unfold wellFormed. simpl.
    repeat (constructor; [simpl; intuition discriminate|]). constructor. }
  assert (Hin : In Sample.nodeB (preorder Sample.root)) by (simpl; auto).
  split; [exact Hwf|]. split; [exact Hin|].
  destruct (findNodePath_valid Sample.root Sample.nodeB Hwf Hin)
    as (H1 & H2 & _).
  split; assumption.
Defined.

(* ================================================================== *)
(** * Selecting a node of the filtered tree *)
(* ================================================================== *)

Lemma firstIdentical_foreign : forall root target,
  (forall x, In x (preorder root) -> ident x <> ident target) ->
  firstIdentical root target = None.
Proof.
  intros root target H. unfold firstIdentical.
  induction (preorder root) as [|a l IH]; [reflexivity|].
  simpl. unfold identical at 1, sameObject.
  destruct (ident a =? ident target) eqn:E.
  - apply Nat.eqb_eq in E. exfalso. exact (H a (or_introl eq_refl) E).
  - apply IH. intros x Hx. apply H. right. exact Hx.
Qed.

(** C2 fails on the code.  With a term whose trimmed form is not empty,
    every node of the tree that [filterTree] returns is an object made
    by [filterTree]; none of them is an object of the canonical tree, so
    [findNodePath(kernelData, node)] is the empty array for each of them. *)
Theorem findNodePath_of_filtered_node : forall kernelData term k R node,
  (forall x, In x (preorder kernelData) -> ident x < k) ->
  isEmpty (trim term) = false ->
  fst (filterTree kernelData term k) = Some R ->
  In node (preorder R) ->
  findNodePath kernelData node = [].
Proof.
  intros kernelData term k R node Hheap Hs HR Hnode.
  set (lct := trim (toLowerCase term)).
  assert (Hn : trim (toLowerCase lct) = lct) by apply lowerCaseTerm_idem.
  assert (He : isEmpty lct = false)
    by (unfold lct; rewrite isEmpty_lowerCaseTerm; exact Hs).
  rewrite <- filterTree_normalised in HR. fold lct in HR.
  destruct (filterTree kernelData lct k) as [o k'] eqn:E.
  simpl in HR. subst o.
  destruct (filterTree_fresh lct Hn He _ _ _ _ E) as [_ Hfresh].
  apply findNodePath_not_found, firstIdentical_foreign.
  intros x Hx. specialize (Hheap x Hx). specialize (Hfresh node Hnode). lia.
Qed.

Lemma findNodePath_of_filtered_node_witness :
  fst (filterTree Sample.root (lit "sched") Sample.heap0)
    = Some Sample.filteredRoot /\
  In Sample.filteredB (preorder Sample.filteredRoot) /\
  findNodePath Sample.root Sample.filteredB = [].
Proof.
  split; [reflexivity|]. split; [simpl; auto|].
  apply (findNodePath_of_filtered_node Sample.root (lit "sched")
           Sample.heap0 Sample.filteredRoot Sample.filteredB).
  - intros x Hx. unfold Sample.heap0. simpl in Hx.
    repeat (destruct Hx as [<-|Hx]; [simpl; lia|]). destruct Hx.
  - reflexivity.
  - reflexivity.
  - simpl. auto.
Defined.

(** The same in the running application: a search for "sched", then a
    click on the first child of the root.  The clicked node is selected and
    its breadcrumb is empty. *)
Lemma breadcrumb_empty_under_filter :
  let st := run Sample.root (initialState Sample.root Sample.heap0)
              [SearchChange (lit "sched"); Interact [0]] in
  option_map name (selectedNode st) = Some (lit "kernel") /\
  selectedNodePath st = [].
Proof. vm_compute. split; reflexivity. Qed.

(** Without a filter the same click resolves the path from the root. *)
Lemma breadcrumb_without_filter :
  let st := run Sample.root (initialState Sample.root Sample.heap0)
              [Interact [0]] in
  selectedNode st = Some Sample.nodeA /\
  selectedNodePath st = [Sample.root; Sample.nodeA].
Proof. vm_compute. split; reflexivity. Qed.

(* ================================================================== *)
(** * The highlighter: matching and splitting *)
(* ================================================================== *)

Lemma matchesAt_app : forall term s t,
  matchesAt term s = true -> matchesAt term (s ++ t) = true.
Proof.
  induction term as [|a term IH]; intros s t H; [reflexivity|].
  destruct s as [|b s]; [discriminate|]. simpl in *.
  apply andb_true_iff in H. destruct H as [H1 H2].
  rewrite H1. simpl. apply IH. exact H2.
Qed.

Lemma matchesAt_length : forall term s,
  matchesAt term s = true -> length term <= length s.
Proof.
  induction term as [|a term IH]; intros s H; simpl; [lia|].
  destruct s as [|b s]; [discriminate|]. simpl in *.
  apply andb_true_iff in H. destruct H as [_ H]. apply IH in H. lia.
Qed.

Lemma matchesAt_firstn : forall term s,
  matchesAt term s = true ->
  matchesAt term (firstn (length term) s) = true.
Proof.
  induction term as [|a term IH]; intros s H; [reflexivity|].
  destruct s as [|b s]; [discriminate|]. simpl in *.
  apply andb_true_iff in H. destruct H as [H1 H2].
  rewrite H1. simpl. apply IH. exact H2.
Qed.

Lemma matchesAt_nil : forall term,
  isEmpty term = false -> matchesAt term [] = false.
Proof. intros [|a term] H; [discriminate|reflexivity]. Qed.

Lemma findMatch_none_iff : forall term s,
  findMatch term s = None <->
  forall i, i <= length s -> matchesAt term (skipn i s) = false.
Proof.
  intros term. induction s as [|c s IH]; simpl.
  - destruct (matchesAt term []) eqn:E; split; intro H.
    + discriminate.
    + specialize (H 0 (le_n _)). simpl in H. rewrite E in H. discriminate.
    + intros i Hi. destruct i; [exact E|]. simpl. exact E.
    + reflexivity.
  - destruct (matchesAt term (c :: s)) eqn:E; split; intro H.
    + discriminate.
    + specialize (H 0 (Nat.le_0_l _)). simpl in H. rewrite E in H.
      discriminate.
    + destruct (findMatch term s) eqn:F; [discriminate|].
      intros i Hi. destruct i as [|i]; [exact E|]. simpl.
      apply (proj1 IH eq_refl). lia.
    + assert (F : findMatch term s = None).
      { apply IH. intros i Hi. apply (H (S i)). lia. }
      rewrite F. reflexivity.
Qed.

Lemma findMatch_skipn : forall term s i,
  findMatch term s = None -> findMatch term (skipn i s) = None.
Proof.
  intros term s i H. rewrite findMatch_none_iff in *.
  intros j Hj. rewrite skipn_skipn.
  rewrite length_skipn in Hj.
  destruct (Nat.le_gt_cases (j + i) (length s)) as [Hle|Hgt].
  - apply H. exact Hle.
  - assert (i <= length s \/ length s < i) as [Hi|Hi] by lia; [lia|].
    assert (j = 0) by lia. subst j. simpl.
    rewrite skipn_all2 by lia.
    specialize (H (length s) (le_n _)). rewrite skipn_all in H. exact H.
Qed.


(** The parts of [split] always put the text back together. *)
Lemma splitLoop_concat : forall fuel term plain rest,
  concat (splitLoop fuel term plain rest) = plain ++ rest.
Proof.
  induction fuel as [|fuel IH]; intros term plain rest; simpl.
  - apply app_nil_r.
  - destruct rest as [|c rest'].
    + simpl. reflexivity.
    + destruct (matchesAt term (c :: rest') &&
                negb (isEmpty term && isEmpty plain)).
      * simpl concat. rewrite IH. simpl app at 2.
        rewrite firstn_skipn. reflexivity.
      * rewrite IH. rewrite <- app_assoc. reflexivity.
Qed.

Lemma splitLoop_wellSplit : forall term,
  isEmpty term = false ->
  forall fuel plain rest,
    length rest < fuel -> noMatchBefore term plain rest ->
    WellSplit term (splitLoop fuel term plain rest).
Proof.
  intros term Hne. assert (Hlen : 1 <= length term)
    by (destruct term; [discriminate|simpl; lia]).
  assert (Hplain : forall plain rest,
            noMatchBefore term plain rest -> findMatch term plain = None).
  { intros plain rest Hinv. apply findMatch_none_iff. intros i Hi.
    assert (i < length plain \/ i = length plain) as [Hlt| ->] by lia.
    - specialize (Hinv i Hlt).
      destruct (matchesAt term (skipn i plain)) eqn:E; [|reflexivity].
      apply (matchesAt_app _ _ rest) in E.
      rewrite skipn_app in Hinv.
      replace (i - length plain) with 0 in Hinv by lia.
      simpl in Hinv. rewrite Hinv in E. discriminate.
    - rewrite skipn_all. apply matchesAt_nil. exact Hne. }
  induction fuel as [|fuel IH]; intros plain rest Hfuel Hinv; [lia|].
  simpl. destruct rest as [|c rest'].
  - apply ws_last. exact (Hplain plain [] Hinv).
  - rewrite Hne. simpl andb. rewrite andb_true_r.
    destruct (matchesAt term (c :: rest')) eqn:E.
    + apply ws_more.
      * exact (Hplain _ _ Hinv).
      * apply matchesAt_firstn. exact E.
      * apply firstn_length_le. apply matchesAt_length. exact E.
      * apply IH.
        -- rewrite length_skipn.
           assert (length (c :: rest') = S (length rest')) by reflexivity.
           lia.
        -- intros i Hi. simpl in Hi. lia.
    + apply IH.
      * simpl in Hfuel. lia.
      * intros i Hi. rewrite <- app_assoc. simpl app at 2.
        rewrite length_app in Hi. simpl in Hi.
        assert (i < length plain \/ i = length plain) as [Hlt| ->] by lia.
        -- apply Hinv. exact Hlt.
        -- rewrite skipn_app, skipn_all, Nat.sub_diag. simpl. exact E.
Qed.

Lemma splitRegex_wellSplit : forall term text,
  isEmpty term = false -> WellSplit term (splitRegex term text).
Proof.
  intros term text Hne. unfold splitRegex.
  apply splitLoop_wellSplit; [exact Hne|lia|].
  intros i Hi. simpl in Hi. lia.
Qed.

Lemma splitRegex_concat : forall term text,
  concat (splitRegex term text) = text.
Proof. intros term text. unfold splitRegex. apply splitLoop_concat. Qed.

(* ================================================================== *)
(** * The highlighter: tagging the parts with a shared [lastIndex] *)
(* ================================================================== *)

(** A plain part tests false wherever the search starts, and the
    [lastIndex] goes back to 0. *)
Lemma regexTest_plain : forall term li p,
  findMatch term p = None -> regexTest term li p = (false, 0).
Proof.
  intros term li p H. unfold regexTest.
  destruct (length p <? li); [reflexivity|].
  rewrite (findMatch_skipn _ _ li H). reflexivity.
Qed.

(** A matched part tests true when the search starts at 0. *)
Lemma regexTest_match : forall term m,
  matchesAt term m = true -> regexTest term 0 m = (true, length term).
Proof.
  intros term m H. unfold regexTest. simpl skipn.
  replace (length m <? 0) with false by (symmetry; apply Nat.ltb_ge; lia).
  destruct m; simpl findMatch; rewrite H; reflexivity.
Qed.

(** The [g] flag makes [regex.test] depend on the previous call, but on
    the parts of [split] the tags still come out plain and matched in
    turn: every matched part is followed by a plain one, which resets
    [lastIndex]. *)
Lemma highlightParts_wellSplit : forall term parts,
  WellSplit term parts ->
  forall li, highlightParts term li parts = (tagAlternately parts, 0).
Proof.
  induction 1 as [p Hp|p m rest Hp Hm Hlen _ IH]; intro li.
  - simpl. unfold highlightPart. rewrite (regexTest_plain _ li _ Hp).
    reflexivity.
  - change (highlightParts term li (p :: m :: rest))
      with (let '(sp, i1) := highlightPart term li p in
            let '(sps, i2) :=
              (let '(sp', i1') := highlightPart term i1 m in
               let '(sps', i2') := highlightParts term i1' rest in
               (sp' :: sps', i2')) in
            (sp :: sps, i2)).
    unfold highlightPart. rewrite (regexTest_plain _ li _ Hp).
    rewrite (regexTest_match _ _ Hm). rewrite IH. reflexivity.
Qed.

Lemma tagAlternately_text : forall term parts,
  WellSplit term parts -> map text (tagAlternately parts) = parts.
Proof.
  induction 1 as [p Hp|p m rest Hp Hm Hlen _ IH]; simpl; [reflexivity|].
  simpl in IH. rewrite IH. reflexivity.
Qed.

Lemma tagAlternately_alternating : forall term parts,
  WellSplit term parts -> alternating (tagAlternately parts) = true.
Proof.
  induction 1 as [p Hp|p m rest Hp Hm Hlen _ IH]; [reflexivity|].
  change (alternating (tagAlternately rest) = true). exact IH.
Qed.


Lemma trim_nonempty : forall s, isEmpty (trim s) = false -> isEmpty s = false.
Proof. intros [|c s] H; [discriminate H|reflexivity]. Qed.

(** The inline rendering, for a term whose trimmed form is not empty. *)
Lemma inline_spans : forall text term,
  isEmpty (trim term) = false ->
  HighlightText text term AsSpan =
  Inline (tagAlternately (splitRegex term text)).
Proof.
  intros text term H. unfold HighlightText. rewrite H.
  rewrite (highlightParts_wellSplit _ _
             (splitRegex_wellSplit term text (trim_nonempty term H))).
  reflexivity.
Qed.

Lemma highlightLines_spec : forall term,
  isEmpty term = false ->
  forall lines li,
    fst (highlightLines term li lines) =
    map (fun line => tagAlternately (splitRegex term line)) lines.
Proof.
  intros term Hne. induction lines as [|line lines IH]; intro li;
    [reflexivity|].
  simpl highlightLines.
  rewrite (highlightParts_wellSplit _ _ (splitRegex_wellSplit term line Hne)).
  specialize (IH 0). destruct (highlightLines term 0 lines) as [ps i2].
  simpl in *. rewrite IH. reflexivity.
Qed.

(** The paragraph rendering, for a term whose trimmed form is not empty. *)
Lemma paragraph_spans : forall text term,
  isEmpty (trim term) = false ->
  HighlightText text term AsP =
  Paragraphs (map (fun line => tagAlternately (splitRegex term line))
                (splitChar newline text)).
Proof.
  intros text term H. unfold HighlightText. rewrite H.
  rewrite (highlightLines_spec term (trim_nonempty term H)). reflexivity.
Qed.

Lemma splitChar_nonempty : forall sep s, splitChar sep s <> [].
Proof.
  intros sep [|c r]; simpl; [discriminate|].
  destruct (Ascii.eqb c sep); [discriminate|].
  destruct (splitChar sep r); discriminate.
Qed.

Lemma joinLines_splitChar : forall s, joinLines (splitChar newline s) = s.
Proof.
  induction s as [|c r IH]; [reflexivity|]. simpl splitChar.
  destruct (Ascii.eqb c newline) eqn:E.
  - apply Ascii.eqb_eq in E. subst c.
    pose proof (splitChar_nonempty newline r) as Hne.
    destruct (splitChar newline r) as [|l ls]; [congruence|].
    change (joinLines ([] :: l :: ls)) with (newline :: joinLines (l :: ls)).
    rewrite IH. reflexivity.
  - pose proof (splitChar_nonempty newline r) as Hne.
    destruct (splitChar newline r) as [|l ls]; [congruence|].
    destruct ls as [|l' ls].
    + simpl in *. rewrite IH. reflexivity.
    + change (joinLines ((c :: l) :: l' :: ls))
        with (c :: (l ++ newline :: joinLines (l' :: ls))).
      change (joinLines (l :: l' :: ls))
        with (l ++ newline :: joinLines (l' :: ls)) in IH.
      rewrite IH. reflexivity.
Qed.

Lemma splitChar_no_newline : forall s,
  Forall (fun l => ~ In newline l) (splitChar newline s).
Proof.
  induction s as [|c r IH]; simpl.
  - constructor; [intros []|constructor].
  - destruct (Ascii.eqb c newline) eqn:E.
    + constructor; [intros []|exact IH].
    + destruct (splitChar newline r) as [|l ls].
      * constructor; [|constructor]. intros [->|[]].
        rewrite Ascii.eqb_refl in E. discriminate.
      * inversion IH as [|? ? Hl Hls]; subst. constructor; [|exact Hls].
        intros [->|Hin]; [|exact (Hl Hin)].
        rewrite Ascii.eqb_refl in E. discriminate.
Qed.

Lemma concatText_tagAlternately : forall term text,
  isEmpty term = false ->
  concatText (tagAlternately (splitRegex term text)) = text.
Proof.
  intros term text H. unfold concatText.
  rewrite (tagAlternately_text _ _ (splitRegex_wellSplit term text H)).
  apply splitRegex_concat.
Qed.

Lemma span_within_text : forall (spans : list Span) sp c,
  In sp spans -> In c (text sp) -> In c (concatText spans).
Proof.
  intros spans sp c Hsp Hc. unfold concatText. apply in_concat.
  exists (text sp). split; [apply in_map; exact Hsp|exact Hc].
Qed.


(** C6 (amended).  For every text and every term.  Inline: the spans are
    plain and matched in turn and their texts, put together, are the text.
    By paragraphs: there is one list of spans per line of the text, each
    plain and matched in turn; the texts of the spans of a paragraph, put
    together, are the corresponding line, so the text is the paragraphs
    joined by line breaks; and no span contains a line break. *)
Theorem highlight_reconstruction : forall txt term,
  (concatText (spansOf (HighlightText txt term AsSpan)) = txt /\
   alternating (spansOf (HighlightText txt term AsSpan)) = true)
  /\
  (exists lines,
     HighlightText txt term AsP = Paragraphs lines /\
     map concatText lines = splitChar newline txt /\
     joinLines (map concatText lines) = txt /\
     Forall (fun l => alternating l = true) lines /\
     (forall sp, In sp (concat lines) -> ~ In newline (text sp))).
Proof.
  intros txt term.
  assert (Hpar : forall lines,
            map concatText lines = splitChar newline txt ->
            joinLines (map concatText lines) = txt /\
            (forall sp, In sp (concat lines) -> ~ In newline (text sp))).
  { intros lines Hl. split; [rewrite Hl; apply joinLines_splitChar|].
    intros sp Hsp Hnl. apply in_concat in Hsp. destruct Hsp as [l [Hl1 Hl2]].
    pose proof (splitChar_no_newline txt) as Hno.
    rewrite Forall_forall in Hno. apply (Hno (concatText l)).
    - rewrite <- Hl. apply in_map. exact Hl1.
    - exact (span_within_text l sp newline Hl2 Hnl). }
  destruct (isEmpty (trim term)) eqn:E.
  - split.
    + unfold HighlightText. rewrite E. unfold concatText. simpl.
      rewrite app_nil_r. auto.
    + exists (map (fun line => [mkSpan Plain line]) (splitChar newline txt)).
      assert (Hl : map concatText
                     (map (fun line => [mkSpan Plain line])
                        (splitChar newline txt)) = splitChar newline txt).
      { rewrite map_map. rewrite <- (map_id (splitChar newline txt)) at 2.
        apply map_ext. intro l. unfold concatText. simpl. apply app_nil_r. }
      split; [unfold HighlightText; rewrite E; reflexivity|].
      split; [exact Hl|]. destruct (Hpar _ Hl) as [H1 H2].
      split; [exact H1|]. split; [|exact H2].
      apply Forall_forall. intros l Hin. apply in_map_iff in Hin.
      destruct Hin as [line [<- _]]. reflexivity.
  - pose proof (trim_nonempty term E) as Hne. split.
    + rewrite (inline_spans txt term E). simpl spansOf.
      split; [apply concatText_tagAlternately; exact Hne|].
      exact (tagAlternately_alternating _ _ (splitRegex_wellSplit term txt Hne)).
    + exists (map (fun line => tagAlternately (splitRegex term line))
                (splitChar newline txt)).
      assert (Hl : map concatText
                     (map (fun line => tagAlternately (splitRegex term line))
                        (splitChar newline txt)) = splitChar newline txt).
      { rewrite map_map. rewrite <- (map_id (splitChar newline txt)) at 2.
        apply map_ext. intro l. apply concatText_tagAlternately. exact Hne. }
      split; [apply paragraph_spans; exact E|].
      split; [exact Hl|]. destruct (Hpar _ Hl) as [H1 H2].
      split; [exact H1|]. split; [|exact H2].
      apply Forall_forall. intros l Hin. apply in_map_iff in Hin.
      destruct Hin as [line [<- _]].
      exact (tagAlternately_alternating _ _
               (splitRegex_wellSplit term line Hne)).
Qed.

(** C6 as stated fails by paragraphs: the line breaks of the text are in
    no span, so the spans of a text of two lines do not give it back. *)
Lemma paragraph_spans_omit_line_breaks :
  concatText (spansOf (HighlightText Sample.twoLines (lit "a") AsP))
    = lit "ab" /\
  concatText (spansOf (HighlightText Sample.twoLines (lit "a") AsP))
    <> Sample.twoLines.
Proof.
  split; [reflexivity|]. vm_compute. discriminate.
Qed.

(** The scenario of the specification. *)
Example highlight_scheduler :
  spansOf (HighlightText (lit "CPU scheduler") (lit "sched") AsSpan) =
  [mkSpan Plain (lit "CPU "); mkSpan Matched (lit "sched");
   mkSpan Plain (lit "uler")].
Proof. reflexivity. Qed.

(* ================================================================== *)
(** * The filter's test and the highlighter *)
(* ================================================================== *)












(** A term with a line break inside is found by the filter in a text of
    two lines and by the inline highlighter, but not by paragraphs. *)
Lemma paragraphs_miss_line_break_term :
  includes (toLowerCase Sample.twoLines) (toLowerCase Sample.twoLines)
    = true /\
  hasMatchedSpan (HighlightText Sample.twoLines Sample.twoLines AsSpan)
    = true /\
  hasMatchedSpan (HighlightText Sample.twoLines Sample.twoLines AsP) = false.
Proof. repeat split; reflexivity. Qed.

(* ================================================================== *)
(** * The application: selection, search and expansion *)
(* ================================================================== *)

Lemma strEq_true : forall a b, strEq a b = true -> a = b.
Proof.
  intros a b. unfold strEq.
  destruct (list_eq_dec ascii_dec a b); [auto|discriminate].
Qed.

Lemma renderTreeNode_unfold : forall node isRoot startExpanded old,
  renderTreeNode node isRoot startExpanded old =
  let expanded :=
    match old with
    | Some o => isExpanded o
    | None => isRoot || startExpanded
    end in
  let oldKids := match old with Some o => kids o | None => [] end in
  mkInstance node expanded
    (if expanded && isDirectory node
     then renderChildren startExpanded oldKids (childList node) 0
     else []).
Proof.
  intros [i n s d [cs|]] isRoot startExpanded old; [reflexivity|].
  simpl. rewrite andb_false_r. reflexivity.
Qed.

Lemma renderTreeNode_isExpanded : forall node isRoot startExpanded old,
  isExpanded (renderTreeNode node isRoot startExpanded old) =
  match old with
  | Some o => isExpanded o
  | None => isRoot || startExpanded
  end.
Proof.
  intros. rewrite renderTreeNode_unfold. reflexivity.
Qed.

Section AppFacts.

Variable kernelData : KernelNode.

(** A render changes neither the hooks of [App] nor the selection. *)
Lemma renderApp_hooks : forall st,
  searchTerm (renderApp kernelData st) = searchTerm st /\
  visualizerKey (renderApp kernelData st) = visualizerKey st /\
  selectedNode (renderApp kernelData st) = selectedNode st /\
  selectedNodePath (renderApp kernelData st) = selectedNodePath st.
Proof.
  intro st. unfold renderApp.
  destruct (if strEq (memoTerm st) (searchTerm st)
            then (filteredData st, heapNext st)
            else computeFiltered kernelData (searchTerm st) (heapNext st))
    as [data next].
  simpl. auto.
Qed.

(** What a render mounts: nothing when the data is [null], and otherwise
    the root [TreeNode] rendered against the instance kept under an
    unchanged key. *)
Lemma renderApp_mounted : forall st,
  mounted (renderApp kernelData st) =
  match filteredData (renderApp kernelData st) with
  | Some d =>
      Some (visualizerKey st,
            renderTreeNode d true (negb (isEmpty (searchTerm st)))
              match mounted st with
              | Some (k, inst) =>
                  if k =? visualizerKey st then Some inst else None
              | None => None
              end)
  | None => None
  end.
Proof.
  intro st. unfold renderApp.
  destruct (if strEq (memoTerm st) (searchTerm st)
            then (filteredData st, heapNext st)
            else computeFiltered kernelData (searchTerm st) (heapNext st))
    as [[d|] next]; reflexivity.
Qed.

Lemma renderApp_memo : forall st,
  memoOk kernelData st ->
  memoOk kernelData (renderApp kernelData st) /\
  exists k, filteredData (renderApp kernelData st) =
            fst (computeFiltered kernelData (searchTerm st) k).
Proof.
  intros st [k Hk]. unfold renderApp, memoOk.
  destruct (strEq (memoTerm st) (searchTerm st)) eqn:E.
  - apply strEq_true in E. simpl. rewrite <- E.
    split; exists k; exact Hk.
  - destruct (computeFiltered kernelData (searchTerm st) (heapNext st))
      as [data next] eqn:C.
    simpl. split; exists (heapNext st); rewrite C; reflexivity.
Qed.

Lemma renderApp_rootOk : forall st,
  rootOk st -> rootOk (renderApp kernelData st).
Proof.
  intros st H. unfold rootOk in *. rewrite renderApp_mounted.
  destruct (filteredData (renderApp kernelData st)) as [d|]; [|exact I].
  rewrite renderTreeNode_isExpanded.
  destruct (mounted st) as [[k inst]|]; [|reflexivity].
  destruct (k =? visualizerKey st); [exact H|reflexivity].
Qed.

Lemma step_memoOk : forall st e,
  memoOk kernelData st -> memoOk kernelData (step kernelData st e).
Proof.
  intros st e H. destruct e as [value| |path|index]; simpl.
  - apply renderApp_memo. exact H.
  - apply renderApp_memo. exact H.
  - unfold handleInteraction.
    destruct (mounted st) as [[k root]|]; [|exact H].
    destruct (instanceAt path root); [|exact H].
    apply renderApp_memo. exact H.
  - destruct (nth_error (selectedNodePath st) index); [|exact H].
    apply renderApp_memo. exact H.
Qed.

Lemma run_memoOk : forall events st,
  memoOk kernelData st -> memoOk kernelData (run kernelData st events).
Proof.
  induction events as [|e events IH]; intros st H; [exact H|].
  apply IH, step_memoOk, H.
Qed.

Lemma initialState_memoOk : forall h0,
  memoOk kernelData (initialState kernelData h0).
Proof. intro h0. exists 0. reflexivity. Qed.

Lemma step_rootOk : forall st e,
  e <> Interact [] -> rootOk st -> rootOk (step kernelData st e).
Proof.
  intros st e Hne H. destruct e as [value| |path|index]; simpl.
  - apply renderApp_rootOk. exact H.
  - apply renderApp_rootOk. unfold rootOk in *. simpl.
    destruct (mounted st) as [[k inst]|]; auto.
  - unfold handleInteraction. unfold rootOk in H.
    destruct (mounted st) as [[k root]|] eqn:M; [|unfold rootOk; rewrite M; exact I].
    destruct (instanceAt path root) as [target|];
      [|unfold rootOk; rewrite M; exact H].
    apply renderApp_rootOk. unfold rootOk. simpl.
    destruct (isDirectory (inode target)); [|exact H].
    destruct path as [|i path']; [congruence|exact H].
  - destruct (nth_error (selectedNodePath st) index); [|exact H].
    apply renderApp_rootOk. exact H.
Qed.

End AppFacts.

(** C10.  After [handleSearchChange], whatever the state before and
    whatever the new value, no node is selected and the breadcrumb path is
    empty. *)
Theorem handleSearchChange_clears_selection : forall kernelData value st,
  selectedNode (handleSearchChange kernelData value st) = None /\
  selectedNodePath (handleSearchChange kernelData value st) = [].
Proof.
  intros kernelData value st. unfold handleSearchChange.
  destruct (renderApp_hooks kernelData
              (mkApp value (visualizerKey st) None [] (memoTerm st)
                 (filteredData st) (heapNext st) (mounted st)))
    as (_ & _ & H1 & H2).
  split; assumption.
Qed.

(** C9.  When the trimmed term is not empty and no node of the tree
    matches it, [filterTree] returns [null], and after the search handler
    ran on any reachable state the tree column shows the "No results found"
    block and no tree. *)
Theorem no_match_shows_no_results : forall kernelData s h0 events,
  isEmpty (trim s) = false ->
  (forall n, In n (preorder kernelData) -> selfMatch n s = false) ->
  (forall k, fst (filterTree kernelData s k) = None) /\
  showsNoResults
    (handleSearchChange kernelData s
       (run kernelData (initialState kernelData h0) events)) = true.
Proof.
  intros kernelData s h0 events Hs Hno.
  assert (Hnull : forall k, fst (filterTree kernelData s k) = None)
    by (intro k; apply filterTree_no_match; assumption).
  split; [exact Hnull|].
  set (st := run kernelData (initialState kernelData h0) events).
  assert (Hmemo : memoOk kernelData st)
    by apply run_memoOk, initialState_memoOk.
  unfold handleSearchChange, showsNoResults. rewrite renderApp_mounted.
  destruct (renderApp_memo kernelData
              (mkApp s (visualizerKey st) None [] (memoTerm st)
                 (filteredData st) (heapNext st) (mounted st)) Hmemo)
    as [_ [k Hk]].
  rewrite Hk. simpl searchTerm. unfold computeFiltered.
  rewrite (trim_nonempty s Hs), Hnull. reflexivity.
Qed.

Lemma no_match_shows_no_results_witness :
  isEmpty (trim (lit "zzz")) = false /\
  showsNoResults
    (handleSearchChange Sample.root (lit "zzz")
       (run Sample.root (initialState Sample.root Sample.heap0)
          [Interact [0]])) = true.
Proof.
  split; [reflexivity|].
  apply (no_match_shows_no_results Sample.root (lit "zzz") Sample.heap0
           [Interact [0]]).
  - reflexivity.
  - intros n Hn. simpl in Hn.
    repeat (destruct Hn as [<-|Hn]; [reflexivity|]). destruct Hn.
Defined.

Lemma run_rootOk : forall kernelData events st,
  Forall (fun e => e <> Interact []) events ->
  rootOk st -> rootOk (run kernelData st events).
Proof.
  intros kernelData. induction events as [|e events IH]; intros st Hev H;
    [exact H|].
  inversion Hev as [|? ? He Hrest]; subst.
  apply IH; [exact Hrest|]. apply step_rootOk; assumption.
Qed.

(** C4 (amended).  In every state reached by user events none of which is
    an interaction with the root node itself, the root is expanded whenever
    a tree is shown. *)
Theorem root_stays_expanded : forall kernelData h0 events,
  Forall (fun e => e <> Interact []) events ->
  showsNoResults (run kernelData (initialState kernelData h0) events) = true
  \/ rootExpanded (run kernelData (initialState kernelData h0) events) = true.
Proof.
  intros kernelData h0 events Hev.
  assert (H : rootOk (run kernelData (initialState kernelData h0) events)).
  { apply run_rootOk; [exact Hev|]. unfold rootOk. simpl.
    apply renderTreeNode_isExpanded. }
  unfold rootOk, showsNoResults, rootExpanded in *.
  destruct (mounted _) as [[k root]|]; [right; exact H|left; reflexivity].
Qed.

Lemma root_stays_expanded_witness :
  rootExpanded
    (run Sample.root (initialState Sample.root Sample.heap0)
       [SearchChange (lit "sched"); Interact [0]; CollapseAll;
        Interact [0]]) = true.
Proof.
  destruct (root_stays_expanded Sample.root Sample.heap0
              [SearchChange (lit "sched"); Interact [0]; CollapseAll;
               Interact [0]]) as [H|H].
  - repeat constructor; discriminate.
  - discriminate H.
  - exact H.
Defined.

(** C4 as stated fails: a click on the root, which is a directory, runs
    its [handleInteraction] and collapses it; the tree is still shown. *)
Lemma root_collapses_on_click :
  let st := run Sample.root (initialState Sample.root Sample.heap0)
              [Interact []] in
  showsNoResults st = false /\ rootExpanded st = false.
Proof. split; reflexivity. Qed.

Lemma allExpanded_unfold : forall inst,
  allExpanded inst = isExpanded inst && forallb allExpanded (kids inst).
Proof. intros [n e ks]; reflexivity. Qed.

Lemma shownNodes_unfold : forall inst,
  shownNodes inst = inode inst :: flat_map shownNodes (kids inst).
Proof. intros [n e ks]; reflexivity. Qed.

(** A subtree mounted with [startExpanded] shows all its nodes, each in
    the expanded state. *)
Lemma fresh_mount_expanded : forall node isRoot,
  allExpanded (renderTreeNode node isRoot true None) = true /\
  shownNodes (renderTreeNode node isRoot true None) = preorder node.
Proof.
  induction node as [i n s d|i n s d cs IH] using KernelNode_ind;
    intro isRoot; rewrite renderTreeNode_unfold; cbv zeta;
    rewrite orb_true_r.
  - split; reflexivity.
  - assert (Hk : forall index,
              forallb allExpanded (renderChildren true [] cs index) = true /\
              flat_map shownNodes (renderChildren true [] cs index) =
              flat_map preorder cs).
    { induction IH as [|c cs Hc _ IHcs]; intro index; [split; reflexivity|].
      assert (Hr : retained [] index c = None)
        by (unfold retained; destruct index; reflexivity).
      change (renderChildren true [] (c :: cs) index)
        with (renderTreeNode c false true (retained [] index c)
                :: renderChildren true [] cs (S index)).
      rewrite Hr. destruct (Hc false) as [H1 H2].
      destruct (IHcs (S index)) as [H3 H4].
      simpl. rewrite H1, H2, H3, H4. split; reflexivity. }
    destruct cs as [|c cs]; [split; reflexivity|].
    destruct (Hk 0) as [H1 H2].
    change (isDirectory (mkNode i n s d (Some (c :: cs)))) with true.
    change (childList (mkNode i n s d (Some (c :: cs)))) with (c :: cs).
    simpl andb. cbv iota.
    rewrite allExpanded_unfold, shownNodes_unfold.
    cbn [isExpanded kids inode]. rewrite H1, H2. split; reflexivity.
Qed.

(** C5 (amended).  While the search term is not empty, a [TreeNode] that
    is mounted starts in the expanded state, and so does all of the subtree
    mounted with it.  In particular, when a change of the search term to
    a non-empty term finds no tree mounted, afterwards either there are
    still no results, or every node of the filtered tree is shown and
    expanded. *)
Theorem search_mounts_expanded : forall kernelData value st,
  isEmpty value = false ->
  (forall node isRoot,
     allExpanded
       (renderTreeNode node isRoot (negb (isEmpty value)) None) = true /\
     shownNodes
       (renderTreeNode node isRoot (negb (isEmpty value)) None)
       = preorder node)
  /\
  (mounted st = None ->
   match mounted (handleSearchChange kernelData value st) with
   | Some (_, root) =>
       allExpanded root = true /\
       exists d,
         filteredData (handleSearchChange kernelData value st) = Some d /\
         shownNodes root = preorder d
   | None => filteredData (handleSearchChange kernelData value st) = None
   end).
Proof.
  intros kernelData value st Hv. rewrite Hv. simpl negb.
  split; [exact fresh_mount_expanded|].
  intro Hm. unfold handleSearchChange. rewrite renderApp_mounted.
  simpl mounted. simpl searchTerm. rewrite Hm, Hv. simpl negb.
  destruct (filteredData (renderApp kernelData _)) as [d|]; [|reflexivity].
  destruct (fresh_mount_expanded d true) as [H1 H2].
  split; [exact H1|]. exists d. split; [reflexivity|exact H2].
Qed.

Lemma search_mounts_expanded_witness :
  let st := run Sample.root (initialState Sample.root Sample.heap0)
              [SearchChange (lit "zzz")] in
  isEmpty (lit "sched") = false /\ mounted st = None /\
  match mounted (handleSearchChange Sample.root (lit "sched") st) with
  | Some (_, root) =>
      allExpanded root = true /\
      exists d,
        filteredData (handleSearchChange Sample.root (lit "sched") st)
          = Some d /\
        shownNodes root = preorder d
  | None =>
      filteredData (handleSearchChange Sample.root (lit "sched") st) = None
  end.
Proof.
  cbv zeta. split; [reflexivity|]. split; [reflexivity|].
  apply (proj2 (search_mounts_expanded Sample.root (lit "sched")
                  (run Sample.root
                     (initialState Sample.root Sample.heap0)
                     [SearchChange (lit "zzz")]) eq_refl)).
  reflexivity.
Defined.

(** C5 as stated fails: with the search term "sched" in place and the
    filtered tree shown fully expanded, a click on the directory kernel
    collapses it; the term is still not empty. *)
Lemma directory_collapses_during_search :
  let st := run Sample.root (initialState Sample.root Sample.heap0)
              [SearchChange (lit "zzz"); SearchChange (lit "sched");
               Interact [0]] in
  isEmpty (searchTerm st) = false /\
  option_map (fun v => map name (shownNodes (snd v))) (mounted st)
    = Some [lit "linux"; lit "kernel"] /\
  option_map (fun v => allExpanded (snd v)) (mounted st) = Some false.
Proof. repeat split; reflexivity. Qed.

(** A [TreeNode] that is kept across the change of the search term keeps
    its state: typing "sched" in the first state leaves the directory
    kernel collapsed. *)
Lemma kept_instance_keeps_state :
  let st := run Sample.root (initialState Sample.root Sample.heap0)
              [SearchChange (lit "sched")] in
  option_map (fun v => map name (shownNodes (snd v))) (mounted st)
    = Some [lit "linux"; lit "kernel"] /\
  option_map (fun v => allExpanded (snd v)) (mounted st) = Some false.
Proof. repeat split; reflexivity. Qed.

(* ================================================================== *)
(** * Further properties of [findNodePath] *)
(* ================================================================== *)

Lemma firstIdentical_none_iff : forall root target,
  firstIdentical root target = None <->
  forall x, In x (preorder root) -> sameObject x target = false.
Proof.
  intros root target. unfold firstIdentical. split.
  - intros H x Hx. exact (find_none _ _ H x Hx).
  - intro H. induction (preorder root) as [|a l IH]; [reflexivity|].
    simpl. unfold identical at 1. rewrite (H a (or_introl eq_refl)).
    apply IH. intros x Hx. apply H. right. exact Hx.
Qed.

(** X1.  [findNodePath] returns the empty array exactly when no node of
    the tree is the target object; the array that [search] pushes on and
    pops from is then left as it was. *)
Theorem findNodePath_empty_iff : forall root target,
  findNodePath root target = [] <->
  forall x, In x (preorder root) -> sameObject x target = false.
Proof.
  intros root target. rewrite <- firstIdentical_none_iff. split.
  - intro H. destruct (firstIdentical root target) as [x|] eqn:E;
      [|reflexivity].
    destruct (findNodePath_first_identical root target x E) as [q [Hq _]].
    rewrite Hq in H. discriminate.
  - apply findNodePath_not_found.
Qed.

(* ================================================================== *)
(** * Further properties of [filterTree] *)
(* ================================================================== *)

(** X2.  The result of [filterTree] depends on the term only through its
    lower-cased, trimmed form: two terms that differ in case or in the
    white space around them filter alike. *)
Theorem filterTree_term_normal_form : forall node s1 s2 k,
  trim (toLowerCase s1) = trim (toLowerCase s2) ->
  filterTree node s1 k = filterTree node s2 k.
Proof.
  intros node s1 s2 k H.
  rewrite <- (filterTree_normalised node s1), <- (filterTree_normalised node s2).
  rewrite H. reflexivity.
Qed.

Lemma filterTree_term_normal_form_witness :
  trim (toLowerCase (lit "  SCHED ")) = trim (toLowerCase (lit "sched")) /\
  filterTree Sample.root (lit "  SCHED ") Sample.heap0 =
  filterTree Sample.root (lit "sched") Sample.heap0.
Proof.
  split; [reflexivity|].
  apply (filterTree_term_normal_form Sample.root (lit "  SCHED ")
           (lit "sched") Sample.heap0).
  reflexivity.
Defined.

Ltac case_cond :=
  match goal with
  | |- context [if ?b then _ else _] => destruct b eqn:?
  end.

Section Allocation.

Variable lct : jsstring.
Hypothesis lct_normal : trim (toLowerCase lct) = lct.
Hypothesis lct_nonempty : isEmpty lct = false.

Lemma NoDup_app_ranges : forall (l1 l2 : list nat) a b c,
  NoDup l1 -> NoDup l2 ->
  (forall x, In x l1 -> a <= x < b) -> (forall x, In x l2 -> b <= x < c) ->
  NoDup (l1 ++ l2).
Proof.
  induction l1 as [|x l1 IH]; intros l2 a b c H1 H2 R1 R2; [exact H2|].
  simpl. inversion H1 as [|? ? Hx H1']; subst. constructor.
  - intro Hin. apply in_app_or in Hin. destruct Hin as [Hin|Hin];
      [exact (Hx Hin)|].
    specialize (R1 x (or_introl eq_refl)). specialize (R2 x Hin). lia.
  - apply (IH l2 a b c); auto. intros y Hy. apply R1. right. exact Hy.
Qed.

Lemma filterTree_allocated : forall node k,
  allocated k (filterTree node lct k).
Proof.
  induction node as [i n s d|i n s d cs IH] using KernelNode_ind;
    intro k; rewrite (filterTree_step lct lct_normal lct_nonempty);
    unfold filteredChildrenOf, allocated; simpl.
  - case_cond; simpl.
    + split; [repeat constructor; intros []|]. split; [lia|].
      intros x [<-|[]]. simpl. lia.
    + reflexivity.
  - assert (Hl : forall k,
              let res := mapFilterTree lct cs k in
              let l := flat_map preorder (filterNotNull (fst res)) in
              NoDup (map ident l) /\ snd res = k + length l /\
              forall x, In x l -> k <= ident x < snd res).
    { clear k. induction IH as [|c cs Hc _ IHcs]; intro k.
      - simpl. split; [constructor|]. split; [lia|]. intros x [].
      - cbv zeta. rewrite mapFilterTree_cons. specialize (Hc k).
        unfold allocated in Hc.
        destruct (filterTree c lct k) as [rc k1].
        specialize (IHcs k1). cbv zeta in IHcs.
        destruct (mapFilterTree lct cs k1) as [rs k2]. simpl in *.
        destruct IHcs as (N2 & L2 & R2).
        destruct rc as [rc|]; simpl.
        + destruct Hc as (N1 & L1 & R1).
          rewrite map_app, length_app. split; [|split].
          * apply (NoDup_app_ranges _ _ k k1 k2); auto.
            -- intros x Hx. apply in_map_iff in Hx.
               destruct Hx as [y [<- Hy]]. apply R1. exact Hy.
            -- intros x Hx. apply in_map_iff in Hx.
               destruct Hx as [y [<- Hy]]. apply R2. exact Hy.
          * lia.
          * intros x Hx. apply in_app_or in Hx. destruct Hx as [Hx|Hx].
            -- specialize (R1 x Hx). lia.
            -- specialize (R2 x Hx). lia.
        + subst k1. auto. }
    specialize (Hl k). cbv zeta in Hl.
    destruct (mapFilterTree lct cs k) as [mapped k1]. simpl in Hl.
    destruct Hl as (N & L & R). simpl.
    case_cond; simpl.
    + split; [|split].
      * constructor; [|exact N]. intro Hin. apply in_map_iff in Hin.
        destruct Hin as [y [Hy Hin]]. specialize (R y Hin). lia.
      * lia.
      * intros x [<-|Hx]; [simpl; lia|]. specialize (R x Hx). lia.
    + match goal with H : _ || _ = false |- _ =>
        apply orb_false_iff in H; destruct H as [_ H] end.
      destruct (filterNotNull mapped); simpl in *; [lia|discriminate].
Qed.

End Allocation.

Section ResultShape.

Variable lct : jsstring.
Hypothesis lct_normal : trim (toLowerCase lct) = lct.
Hypothesis lct_nonempty : isEmpty lct = false.

Lemma mapped_origin : forall cs k r,
  In r (filterNotNull (fst (mapFilterTree lct cs k))) ->
  exists c kc, In c cs /\ fst (filterTree c lct kc) = Some r.
Proof.
  induction cs as [|c cs IH]; intros k r Hin; [destruct Hin|].
  rewrite mapFilterTree_cons in Hin.
  destruct (filterTree c lct k) as [rc k1] eqn:E.
  specialize (IH k1 r).
  destruct (mapFilterTree lct cs k1) as [rs k2]. simpl in *.
  assert (Hrest : In r (filterNotNull rs) ->
                  exists c0 kc, (c = c0 \/ In c0 cs) /\
                                fst (filterTree c0 lct kc) = Some r).
  { intro H. destruct (IH H) as [c0 [kc [H1 H2]]]. exists c0, kc. auto. }
  destruct rc as [rc|]; simpl in Hin; [|auto].
  destruct Hin as [<-|Hin]; [|auto].
  exists c, k. rewrite E. auto.
Qed.

(** How a result relates to its source: the same self-match, a reason to
    be kept, and children that are results for children of the source. *)
Lemma result_decompose : forall T k R,
  fst (filterTree T lct k) = Some R ->
  isMatch R lct = isMatch T lct /\
  isMatch T lct || isDirectory R = true /\
  forall r, In r (childList R) ->
    exists c kc, In c (childList T) /\ fst (filterTree c lct kc) = Some r.
Proof.
  intros T k R H.
  rewrite (filterTree_step lct lct_normal lct_nonempty) in H.
  unfold filteredChildrenOf, childList in *.
  destruct (children T) as [cs|] eqn:Ec.
  - pose proof (mapped_origin cs k) as Ho.
    destruct (mapFilterTree lct cs k) as [mapped k1]. simpl in *.
    destruct (isMatch T lct || _) eqn:Ek; simpl in H; [|discriminate].
    injection H as <-. unfold isMatch, isDirectory. simpl.
    split; [reflexivity|]. split; [exact Ek|exact Ho].
  - destruct (isMatch T lct || _) eqn:Ek; simpl in H; [|discriminate].
    injection H as <-. unfold isMatch, isDirectory. simpl.
    split; [reflexivity|]. split; [exact Ek|]. intros r [].
Qed.

Lemma preorder_unfold : forall n,
  preorder n = n :: flat_map preorder (childList n).
Proof. intros [i n s d [cs|]]; reflexivity. Qed.

(** Every node of a result survives on its own, and one without children
    matches the term itself. *)
Lemma result_nodes : forall T k R,
  fst (filterTree T lct k) = Some R ->
  forall r, In r (preorder R) ->
    survivesSpec lct r = true /\
    (isDirectory r = false -> isMatch r lct = true).
Proof.
  induction T as [i n s d|i n s d cs IH] using KernelNode_ind;
    intros k R HR;
    destruct (result_decompose _ k R HR) as (Hm & Hk & Hc).
  - assert (Hleaf : childList R = []).
    { destruct (childList R) as [|r l]; [reflexivity|].
      destruct (Hc r (or_introl eq_refl)) as [c [kc [[] _]]]. }
    intros r Hr. rewrite preorder_unfold, Hleaf in Hr.
    destruct Hr as [<-|[]].
    assert (Hd : isDirectory R = false).
    { unfold isDirectory, childList in *. destruct (children R) as [[|x l]|];
        [reflexivity|discriminate|reflexivity]. }
    rewrite Hd, orb_false_r in Hk. rewrite <- Hm in Hk.
    rewrite (survivesSpec_unfold lct R), Hk. auto.
  - rewrite Forall_forall in IH.
    assert (Hsub : forall r, In r (childList R) ->
                     forall x, In x (preorder r) ->
                       survivesSpec lct x = true /\
                       (isDirectory x = false -> isMatch x lct = true)).
    { intros r Hr. destruct (Hc r Hr) as [c [kc [Hin Hres]]].
      exact (IH c Hin kc r Hres). }
    intros r Hr. rewrite preorder_unfold in Hr. destruct Hr as [<-|Hr].
    + rewrite <- Hm in Hk. split.
      * rewrite (survivesSpec_unfold lct R).
        apply orb_true_iff in Hk. apply orb_true_iff.
        destruct Hk as [Hk|Hk]; [left; exact Hk|right].
        unfold isDirectory, childList in *.
        destruct (children R) as [[|x l]|]; try discriminate.
        simpl. destruct (Hsub x (or_introl eq_refl) x) as [Hx _].
        -- rewrite preorder_unfold. left. reflexivity.
        -- rewrite Hx. reflexivity.
      * intro Hd. rewrite Hd, orb_false_r in Hk. exact Hk.
    + apply in_flat_map in Hr. destruct Hr as [c [Hc1 Hc2]].
      exact (Hsub c Hc1 r Hc2).
Qed.

(** A tree all of whose nodes survive is copied whole. *)
Lemma copy_of_survivors : forall n,
  (forall x, In x (preorder n) -> survivesSpec lct x = true) ->
  forall k, exists r,
    fst (filterTree n lct k) = Some r /\ eraseIdent r = eraseIdent n.
Proof.
  induction n as [i nm s d|i nm s d cs IH] using KernelNode_ind;
    intros Hall k.
  - pose proof (Hall _ (or_introl eq_refl)) as Hs.
    rewrite (filterTree_step lct lct_normal lct_nonempty).
    unfold filteredChildrenOf. simpl in *. rewrite Hs.
    eexists. split; reflexivity.
  - assert (Hl : forall k,
              map eraseIdent
                (filterNotNull (fst (mapFilterTree lct cs k))) =
              map eraseIdent cs).
    { assert (Hcs : forall c, In c cs ->
                forall x, In x (preorder c) -> survivesSpec lct x = true).
      { intros c Hc x Hx. apply Hall. right. simpl.
        apply in_flat_map. eauto. }
      clear Hall k. induction IH as [|c cs Hc _ IHcs]; intro k;
        [reflexivity|].
      rewrite mapFilterTree_cons.
      destruct (Hc (Hcs c (or_introl eq_refl)) k) as [r [Hr He]].
      destruct (filterTree c lct k) as [rc k1]. simpl in Hr. subst rc.
      specialize (IHcs (fun c0 H => Hcs c0 (or_intror H)) k1).
      destruct (mapFilterTree lct cs k1) as [rs k2]. simpl in *.
      rewrite He, IHcs. reflexivity. }
    pose proof (filterTree_survivesSpec lct lct_normal lct_nonempty
                  (mkNode i nm s d (Some cs)) k) as Hk.
    rewrite (Hall _ (or_introl eq_refl)) in Hk. revert Hk.
    rewrite (filterTree_step lct lct_normal lct_nonempty).
    unfold filteredChildrenOf. simpl. specialize (Hl k).
    destruct (mapFilterTree lct cs k) as [mapped k1]. simpl in *.
    case_cond; intro Hk; [|discriminate Hk].
    eexists. split; [reflexivity|]. simpl. rewrite Hl. reflexivity.
Qed.

End ResultShape.

Lemma effective_nonempty : forall s,
  effective s -> isEmpty (trim (toLowerCase s)) = false.
Proof. intros s H. rewrite isEmpty_lowerCaseTerm. exact H. Qed.

(** X3.  With a term that filters, [filterTree] allocates one new object
    per node of the tree it returns and none when it returns [null]; the
    objects of the result are pairwise distinct, so the result is again a
    well-formed tree. *)
Theorem filterTree_allocates : forall T s k,
  effective s ->
  match fst (filterTree T s k) with
  | Some R =>
      wellFormed R /\
      snd (filterTree T s k) = k + length (preorder R) /\
      forall x, In x (preorder R) -> k <= ident x < snd (filterTree T s k)
  | None => snd (filterTree T s k) = k
  end.
Proof.
  intros T s k Hs. rewrite <- filterTree_normalised.
  exact (filterTree_allocated _ (lowerCaseTerm_idem s)
           (effective_nonempty s Hs) T k).
Qed.

Lemma filterTree_allocates_witness :
  effective (lit "sched") /\
  wellFormed Sample.filteredRoot /\
  snd (filterTree Sample.root (lit "sched") Sample.heap0) =
  Sample.heap0 + length (preorder Sample.filteredRoot).
Proof.
  split; [reflexivity|].
  pose proof (filterTree_allocates Sample.root (lit "sched") Sample.heap0
                eq_refl) as H.
  change (fst (filterTree Sample.root (lit "sched") Sample.heap0))
    with (Some Sample.filteredRoot) in H.
  destruct H as (H1 & H2 & _). split; assumption.
Defined.

(** X4.  Because the filtered tree is well-formed, [findNodePath] over the
    filtered tree itself resolves every one of its nodes: the path starts
    at the filtered root, ends at the node and is a chain of parents. *)
Theorem filtered_tree_paths_resolve : forall T s k R node,
  effective s ->
  fst (filterTree T s k) = Some R -> In node (preorder R) ->
  hd_error (findNodePath R node) = Some R /\
  last (findNodePath R node) R = node /\
  chain (findNodePath R node).
Proof.
  intros T s k R node Hs HR Hin.
  pose proof (filterTree_allocated _ (lowerCaseTerm_idem s)
                (effective_nonempty s Hs) T k) as Ha.
  rewrite filterTree_normalised in Ha. unfold allocated in Ha.
  rewrite HR in Ha. destruct Ha as [Hnd _].
  assert (Hf : firstIdentical R node = Some node)
    by (apply find_unique_ident; assumption).
  destruct (findNodePath_first_identical R node node Hf) as [q [Hq [Hc Hl]]].
  rewrite Hq. simpl hd_error. rewrite Hl. auto.
Qed.

Lemma filtered_tree_paths_resolve_witness :
  findNodePath Sample.filteredRoot Sample.filteredB =
  [Sample.filteredRoot; Sample.filteredA; Sample.filteredB] /\
  last (findNodePath Sample.filteredRoot Sample.filteredB)
    Sample.filteredRoot = Sample.filteredB.
Proof.
  split; [reflexivity|].
  apply (filtered_tree_paths_resolve Sample.root (lit "sched") Sample.heap0
           Sample.filteredRoot Sample.filteredB).
  - reflexivity.
  - reflexivity.
  - simpl. auto.
Defined.

(** X5.  With a term that filters, every node of the tree that
    [filterTree] returns would itself be kept, and every node of it that
    is not a directory matches the term in its own name, summary or
    description: each branch of the filtered tree ends in a match. *)
Theorem filtered_leaves_match : forall T s k R r,
  effective s ->
  fst (filterTree T s k) = Some R -> In r (preorder R) ->
  keeps s r = true /\ (isDirectory r = false -> selfMatch r s = true).
Proof.
  intros T s k R r Hs HR Hin.
  pose proof (lowerCaseTerm_idem s) as Hn.
  pose proof (effective_nonempty s Hs) as He.
  rewrite <- filterTree_normalised in HR.
  destruct (result_nodes _ Hn He T k R HR r Hin) as [H1 H2].
  split; [|exact H2].
  rewrite <- keeps_normalised, (keeps_survivesSpec _ Hn He). exact H1.
Qed.

Lemma filtered_leaves_match_witness :
  isDirectory Sample.filteredB = false /\
  selfMatch Sample.filteredB (lit "sched") = true.
Proof.
  split; [reflexivity|].
  apply (filtered_leaves_match Sample.root (lit "sched") Sample.heap0
           Sample.filteredRoot Sample.filteredB).
  - reflexivity.
  - reflexivity.
  - simpl. auto.
  - reflexivity.
Defined.

(** X6.  Filtering is idempotent up to the identity of the objects:
    filtering the result again by the same term returns a copy with the
    same texts and the same children throughout. *)
Theorem filterTree_idempotent : forall T s k R k2,
  effective s ->
  fst (filterTree T s k) = Some R ->
  exists R2,
    fst (filterTree R s k2) = Some R2 /\ eraseIdent R2 = eraseIdent R.
Proof.
  intros T s k R k2 Hs HR.
  pose proof (lowerCaseTerm_idem s) as Hn.
  pose proof (effective_nonempty s Hs) as He.
  rewrite <- filterTree_normalised in HR.
  destruct (copy_of_survivors _ Hn He R
              (fun x Hx => proj1 (result_nodes _ Hn He T k R HR x Hx)) k2)
    as [R2 [H1 H2]].
  exists R2. rewrite filterTree_normalised in H1. auto.
Qed.

Lemma filterTree_idempotent_witness :
  exists R2,
    fst (filterTree Sample.filteredRoot (lit "sched") 7) = Some R2 /\
    eraseIdent R2 = eraseIdent Sample.filteredRoot.
Proof.
  apply (filterTree_idempotent Sample.root (lit "sched") Sample.heap0
           Sample.filteredRoot 7); reflexivity.
Defined.

(* ================================================================== *)
(** * Further properties of the highlighter *)
(* ================================================================== *)







Section SameFolding.

(** Two terms that the regular expression cannot tell apart. *)
Variables t1 t2 : jsstring.
Hypothesis same_match : forall s, matchesAt t1 s = matchesAt t2 s.
Hypothesis same_length : length t1 = length t2.






End SameFolding.



(* ================================================================== *)
(** * Rendering the tree view *)
(* ================================================================== *)

Lemma settled_unfold : forall n e ks,
  settled (mkInstance n e ks) <->
  (if e && isDirectory n then map inode ks = childList n else ks = []) /\
  allSettled ks.
Proof.
  intros n e ks. simpl.
  assert (H : forall l,
            (fix all (l : list Instance) : Prop :=
               match l with
               | [] => True
               | k :: l' => settled k /\ all l'
               end) l <-> allSettled l).
  { induction l as [|k l IH]; simpl; [tauto|]. rewrite IH. tauto. }
  rewrite H. tauto.
Qed.

Lemma renderChildren_cons : forall se oldKids c cs index,
  renderChildren se oldKids (c :: cs) index =
  renderTreeNode c false se (retained oldKids index c)
    :: renderChildren se oldKids cs (S index).
Proof. reflexivity. Qed.

Lemma renderTreeNode_inode : forall node isRoot se old,
  inode (renderTreeNode node isRoot se old) = node.
Proof. intros. rewrite renderTreeNode_unfold. reflexivity. Qed.

(** A render leaves a settled view. *)
Lemma render_settled : forall node isRoot se old,
  settled (renderTreeNode node isRoot se old).
Proof.
  induction node as [i n s d|i n s d cs IH] using KernelNode_ind;
    intros isRoot se old; rewrite renderTreeNode_unfold; cbv zeta;
    apply settled_unfold.
  - change (isDirectory (mkNode i n s d None)) with false.
    rewrite andb_false_r. split; [reflexivity|exact I].
  - set (e := match old with Some o => isExpanded o | None => _ end).
    set (ok := match old with Some o => kids o | None => [] end).
    destruct (e && isDirectory (mkNode i n s d (Some cs)));
      [|split; [reflexivity|exact I]].
    change (childList (mkNode i n s d (Some cs))) with cs.
    generalize 0 as index. clear e.
    induction IH as [|c cs Hc _ IHcs]; intro index;
      [split; [reflexivity|exact I]|].
    rewrite renderChildren_cons. destruct (IHcs (S index)) as [H1 H2].
    split.
    + simpl. rewrite renderTreeNode_inode, H1. reflexivity.
    + split; [apply Hc|exact H2].
Qed.

Lemma strEq_refl : forall a, strEq a a = true.
Proof.
  intro a. unfold strEq. destruct (list_eq_dec ascii_dec a a); congruence.
Qed.

(** Rendering a settled view again for the same node changes nothing:
    every [TreeNode] is kept with its state. *)
Lemma render_stable : forall inst,
  settled inst ->
  forall isRoot se,
    renderTreeNode (inode inst) isRoot se (Some inst) = inst.
Proof.
  induction inst as [n e ks IH] using Instance_ind.
  intros Hs isRoot se. apply settled_unfold in Hs. destruct Hs as [Hk Hall].
  rewrite renderTreeNode_unfold. cbv zeta. simpl inode. simpl isExpanded.
  simpl kids. f_equal.
  destruct (e && isDirectory n); [|symmetry; exact Hk].
  rewrite <- Hk.
  assert (Hgen : forall pre l,
            ks = pre ++ l -> Forall
              (fun k => settled k ->
                 forall isRoot se,
                   renderTreeNode (inode k) isRoot se (Some k) = k) l ->
            allSettled l ->
            renderChildren se ks (map inode l) (length pre) = l).
  { intros pre l. revert pre.
    induction l as [|k l IHl]; intros pre Hks Hf Ha; [reflexivity|].
    simpl map. rewrite renderChildren_cons.
    inversion Hf as [|? ? Hk1 Hf']; subst. destruct Ha as [Ha1 Ha2].
    assert (Hr : retained (pre ++ k :: l) (length pre) (inode k) = Some k).
    { unfold retained. rewrite nth_error_app2 by lia.
      rewrite Nat.sub_diag. simpl. rewrite strEq_refl. reflexivity. }
    rewrite Hr, (Hk1 Ha1). f_equal.
    specialize (IHl (pre ++ [k])). rewrite length_app in IHl. simpl in IHl.
    rewrite Nat.add_1_r in IHl. apply IHl; auto.
    rewrite <- app_assoc. reflexivity. }
  exact (Hgen [] ks eq_refl IH Hall).
Qed.

(** A view shows only nodes of the tree it renders. *)
Lemma settled_shown : forall inst,
  settled inst -> incl (shownNodes inst) (preorder (inode inst)).
Proof.
  induction inst as [n e ks IH] using Instance_ind.
  intro Hs. apply settled_unfold in Hs. destruct Hs as [Hk Hall].
  rewrite shownNodes_unfold, preorder_unfold. simpl inode. simpl kids.
  intros x [<-|Hx]; [left; reflexivity|right].
  apply in_flat_map in Hx. destruct Hx as [k [Hk1 Hk2]].
  assert (Hc : map inode ks = childList n).
  { destruct (e && isDirectory n); [exact Hk|]. subst ks. destruct Hk1. }
  apply in_flat_map. exists (inode k). split.
  - rewrite <- Hc. apply in_map. exact Hk1.
  - rewrite Forall_forall in IH. apply (IH k Hk1); [|exact Hk2].
    clear -Hall Hk1. induction ks as [|k0 ks IHks]; [destruct Hk1|].
    destruct Hall as [H1 H2]. destruct Hk1 as [->|Hk1]; auto.
Qed.

Lemma instanceAt_shown : forall path root target,
  instanceAt path root = Some target ->
  In (inode target) (shownNodes root).
Proof.
  induction path as [|i path IH]; intros root target H.
  - injection H as <-. rewrite shownNodes_unfold. left. reflexivity.
  - simpl in H. destruct (nth_error (kids root) i) as [k|] eqn:E;
      [|discriminate].
    rewrite shownNodes_unfold. right. apply in_flat_map. exists k.
    split; [exact (nth_error_In _ _ E)|exact (IH k target H)].
Qed.

(** The first mount without search. *)
Lemma render_default : forall node,
  renderTreeNode node true false None = defaultView node.
Proof.
  intro node. rewrite renderTreeNode_unfold. cbv zeta. unfold defaultView.
  simpl orb. f_equal.
  destruct (isDirectory node) eqn:E; simpl andb; cbv iota.
  - generalize 0 as index. induction (childList node) as [|c cs IH];
      intro index; [reflexivity|].
    rewrite renderChildren_cons.
    assert (Hr : retained [] index c = None)
      by (unfold retained; destruct index; reflexivity).
    rewrite Hr, renderTreeNode_unfold, IH. reflexivity.
  - unfold isDirectory, childList in *.
    destruct (children node) as [[|c cs]|]; [reflexivity|discriminate|
                                             reflexivity].
Qed.

(* ================================================================== *)
(** * Invariants of the application *)
(* ================================================================== *)

Section AppInvariants.

Variable kernelData : KernelNode.

Lemma computeFiltered_blank : forall term k,
  isEmpty (trim term) = true ->
  computeFiltered kernelData term k = (Some kernelData, k).
Proof.
  intros term k H. unfold computeFiltered.
  destruct (isEmpty term); [reflexivity|].
  rewrite filterTree_unfold. cbv zeta.
  rewrite isEmpty_lowerCaseTerm, H. reflexivity.
Qed.

(** A render with the remembered term reuses the memoised data. *)
Lemma renderApp_same_term : forall st,
  memoTerm st = searchTerm st ->
  filteredData (renderApp kernelData st) = filteredData st.
Proof.
  intros st H. unfold renderApp. rewrite H, strEq_refl. reflexivity.
Qed.

Lemma renderApp_memoTerm : forall st,
  memoTerm (renderApp kernelData st) = searchTerm (renderApp kernelData st).
Proof.
  intro st. unfold renderApp.
  destruct (if strEq (memoTerm st) (searchTerm st)
            then (filteredData st, heapNext st)
            else computeFiltered kernelData (searchTerm st) (heapNext st))
    as [data next].
  reflexivity.
Qed.

(** Every render establishes the invariant, given a sound memo and a
    breadcrumb that belongs to the selection. *)
Lemma renderApp_ok : forall st,
  memoOk kernelData st -> selectionOk kernelData st ->
  appOk kernelData (renderApp kernelData st).
Proof.
  intros st Hm Hsel. unfold appOk.
  destruct (renderApp_hooks kernelData st) as (H1 & H2 & H3 & H4).
  split; [apply renderApp_memo; exact Hm|].
  split; [apply renderApp_memoTerm|].
  unfold keyOk, viewOk, selectionOk.
  rewrite renderApp_mounted, H2, H3, H4.
  destruct (filteredData (renderApp kernelData st)) as [d|].
  - split; [reflexivity|]. split; [|exact Hsel].
    split; [apply renderTreeNode_inode|apply render_settled].
  - split; [exact I|]. split; [exact I|exact Hsel].
Qed.

Lemma initialState_ok : forall h0,
  appOk kernelData (initialState kernelData h0).
Proof.
  intro h0. unfold appOk.
  split; [apply initialState_memoOk|]. split; [reflexivity|].
  split; [reflexivity|]. split; [|reflexivity].
  unfold viewOk. simpl.
  split; [apply renderTreeNode_inode|apply render_settled].
Qed.

Lemma step_ok : forall st e,
  appOk kernelData st -> appOk kernelData (step kernelData st e).
Proof.
  intros st e H. pose proof H as (Hm & _ & _ & _ & _).
  destruct e as [value| |path|index]; simpl.
  - apply renderApp_ok; [exact Hm|reflexivity].
  - apply renderApp_ok; [exact Hm|reflexivity].
  - unfold handleInteraction.
    destruct (mounted st) as [[k root]|]; [|exact H].
    destruct (instanceAt path root); [|exact H].
    apply renderApp_ok; [exact Hm|reflexivity].
  - destruct (nth_error (selectedNodePath st) index); [|exact H].
    apply renderApp_ok; [exact Hm|reflexivity].
Qed.

Lemma run_ok : forall events st,
  appOk kernelData st -> appOk kernelData (run kernelData st events).
Proof.
  induction events as [|e events IH]; intros st H; [exact H|].
  apply IH, step_ok, H.
Qed.

Lemma reachable_ok : forall h0 events,
  appOk kernelData (run kernelData (initialState kernelData h0) events).
Proof. intros. apply run_ok, initialState_ok. Qed.

(** A render that changes neither the term, the key nor the view's state
    leaves the view as it is. *)
Lemma renderApp_keeps_view : forall st sel path,
  appOk kernelData st ->
  mounted
    (renderApp kernelData
       (mkApp (searchTerm st) (visualizerKey st) sel path (memoTerm st)
          (filteredData st) (heapNext st) (mounted st))) = mounted st.
Proof.
  intros st sel path (Hm & Ht & Hk & Hv & _).
  rewrite renderApp_mounted.
  rewrite (renderApp_same_term
             (mkApp (searchTerm st) (visualizerKey st) sel path (memoTerm st)
                (filteredData st) (heapNext st) (mounted st)) Ht).
  simpl.
  unfold keyOk, viewOk in *.
  destruct (mounted st) as [[k root]|], (filteredData st) as [d|];
    try contradiction; [|reflexivity].
  destruct Hv as [Hd Hs]. subst k. rewrite Nat.eqb_refl.
  rewrite <- Hd, (render_stable root Hs). reflexivity.
Qed.

End AppInvariants.

(** X9.  In every state the application reaches, the filtered data is
    what the memoised function returns for the current search term; the
    tree column shows a tree exactly when that data is not [null]; and the
    tree shown is mounted under the current key, its root renders the
    filtered root, and it shows only nodes of the filtered data. *)
Theorem view_shows_filtered_data : forall kernelData h0 events,
  let st := run kernelData (initialState kernelData h0) events in
  (exists k,
     filteredData st = fst (computeFiltered kernelData (searchTerm st) k))
  /\
  match mounted st, filteredData st with
  | Some (key, root), Some d =>
      key = visualizerKey st /\ inode root = d /\
      incl (shownNodes root) (preorder d)
  | None, None => True
  | _, _ => False
  end.
Proof.
  intros kernelData h0 events st.
  destruct (reachable_ok kernelData h0 events)
    as ([k Hm] & Ht & Hk & Hv & _).
  fold st in Hm, Ht, Hk, Hv. split.
  - exists k. rewrite <- Ht. exact Hm.
  - unfold keyOk, viewOk in *.
    destruct (mounted st) as [[key root]|], (filteredData st) as [d|];
      try contradiction; [|exact I].
    destruct Hv as [Hd Hs]. split; [exact Hk|]. split; [exact Hd|].
    rewrite <- Hd. apply settled_shown. exact Hs.
Qed.

(** X10.  In every state the application reaches, the breadcrumb path
    is the result of [findNodePath(kernelData, selectedNode)], and it is
    empty when no node is selected. *)
Theorem breadcrumb_follows_selection : forall kernelData h0 events,
  let st := run kernelData (initialState kernelData h0) events in
  match selectedNode st with
  | Some n => selectedNodePath st = findNodePath kernelData n
  | None => selectedNodePath st = []
  end.
Proof.
  intros kernelData h0 events st.
  destruct (reachable_ok kernelData h0 events) as (_ & _ & _ & _ & H).
  exact H.
Qed.

(** X11.  [handleCollapseAll], from any state the application reaches:
    the search term is empty, nothing is selected, the breadcrumb is
    empty, the data is the canonical tree itself, and the tree view is
    mounted afresh under the next key with the root expanded, its children
    shown collapsed and nothing below them, whatever was expanded
    before. *)
Theorem collapseAll_resets : forall kernelData h0 events,
  let st := run kernelData (initialState kernelData h0) events in
  let st' := handleCollapseAll kernelData st in
  searchTerm st' = [] /\ selectedNode st' = None /\
  selectedNodePath st' = [] /\ filteredData st' = Some kernelData /\
  mounted st' = Some (S (visualizerKey st), defaultView kernelData).
Proof.
  intros kernelData h0 events st st'.
  destruct (reachable_ok kernelData h0 events) as (Hm & _ & Hk & _).
  fold st in Hm, Hk. unfold st', handleCollapseAll.
  set (st0 := mkApp [] (S (visualizerKey st)) None [] (memoTerm st)
                (filteredData st) (heapNext st) (mounted st)).
  destruct (renderApp_hooks kernelData st0) as (H1 & _ & H3 & H4).
  destruct (renderApp_memo kernelData st0 Hm) as [_ [k Hd]].
  change (fst (computeFiltered kernelData (searchTerm st0) k))
    with (Some kernelData) in Hd.
  repeat (split; [assumption|]).
  rewrite renderApp_mounted, Hd. simpl.
  unfold keyOk in Hk. destruct (mounted st) as [[key root]|].
  - subst key.
    replace (visualizerKey st =? S (visualizerKey st)) with false
      by (symmetry; apply Nat.eqb_neq; lia).
    rewrite render_default. reflexivity.
  - rewrite render_default. reflexivity.
Qed.

(** X12.  While the trimmed search term is empty, the nodes shown are
    the objects of the canonical tree, and a click on any of them selects
    it and resolves its breadcrumb: in a well-formed canonical tree the
    path starts at the root, ends at the clicked node and is a chain of
    parents. *)
Theorem unfiltered_click_resolves :
  forall kernelData h0 events path key root target,
  let st := run kernelData (initialState kernelData h0) events in
  wellFormed kernelData ->
  isEmpty (trim (searchTerm st)) = true ->
  mounted st = Some (key, root) ->
  instanceAt path root = Some target ->
  let st' := step kernelData st (Interact path) in
  selectedNode st' = Some (inode target) /\
  hd_error (selectedNodePath st') = Some kernelData /\
  last (selectedNodePath st') kernelData = inode target /\
  chain (selectedNodePath st').
Proof.
  intros kernelData h0 events path key root target st Hwf Hblank Hmt Hat st'.
  destruct (reachable_ok kernelData h0 events)
    as ([k Hm] & Ht & _ & Hv & _).
  fold st in Hm, Ht, Hv.
  rewrite Ht, (computeFiltered_blank kernelData _ k Hblank) in Hm.
  unfold viewOk in Hv. rewrite Hmt, Hm in Hv. destruct Hv as [Hd Hs].
  assert (Hin : In (inode target) (preorder kernelData)).
  { rewrite <- Hd. apply (settled_shown root Hs).
    exact (instanceAt_shown path root target Hat). }
  unfold st'. simpl. unfold handleInteraction. rewrite Hmt, Hat.
  match goal with |- context [renderApp kernelData ?s0] =>
    destruct (renderApp_hooks kernelData s0) as (_ & _ & H3 & H4) end.
  rewrite H3, H4. simpl. split; [reflexivity|].
  assert (Hf : firstIdentical kernelData (inode target)
               = Some (inode target))
    by (apply find_unique_ident; assumption).
  destruct (findNodePath_first_identical _ _ _ Hf) as [q [Hq [Hc Hl]]].
  rewrite Hq. simpl hd_error. rewrite Hl. auto.
Qed.

Lemma unfiltered_click_resolves_witness :
  let st := run Sample.root (initialState Sample.root Sample.heap0)
              [SearchChange (lit "  "); Interact [0]] in
  selectedNodePath (step Sample.root st (Interact [0; 0])) =
    [Sample.root; Sample.nodeA; Sample.nodeB] /\
  last (selectedNodePath (step Sample.root st (Interact [0; 0])))
    Sample.root = Sample.nodeB.
Proof.
  cbv zeta. split; [reflexivity|].
  assert (Hwf : wellFormed Sample.root).
  { unfold wellFormed. simpl.
    repeat (constructor; [simpl; intuition discriminate|]). constructor. }
  refine (proj1 (proj2 (proj2
    (unfiltered_click_resolves Sample.root Sample.heap0
       [SearchChange (lit "  "); Interact [0]] [0; 0] 0 _ _
       Hwf eq_refl eq_refl eq_refl)))).
Defined.

(** X13.  Selecting does not touch the tree view: after a click on a
    breadcrumb, and after a click on a shown node that is not a directory,
    every mounted [TreeNode] is the same and in the same expansion state
    as before. *)
Theorem selecting_keeps_view : forall kernelData h0 events,
  let st := run kernelData (initialState kernelData h0) events in
  (forall index, mounted (step kernelData st (Breadcrumb index)) = mounted st)
  /\
  (forall path key root target,
     mounted st = Some (key, root) ->
     instanceAt path root = Some target ->
     isDirectory (inode target) = false ->
     mounted (step kernelData st (Interact path)) = mounted st).
Proof.
  intros kernelData h0 events st.
  pose proof (reachable_ok kernelData h0 events) as Hok. fold st in Hok.
  split.
  - intro index. simpl.
    destruct (nth_error (selectedNodePath st) index) as [p|];
      [|reflexivity].
    apply (renderApp_keeps_view kernelData st _ _ Hok).
  - intros path key root target Hmt Hat Hleaf. simpl.
    unfold handleInteraction. rewrite Hmt, Hat, Hleaf. rewrite <- Hmt.
    apply (renderApp_keeps_view kernelData st _ _ Hok).
Qed.

Lemma selecting_keeps_view_witness :
  let st := run Sample.root (initialState Sample.root Sample.heap0)
              [Interact [0]] in
  mounted (step Sample.root st (Interact [0; 0])) = mounted st.
Proof.
  cbv zeta.
  refine (proj2 (selecting_keeps_view Sample.root Sample.heap0 [Interact [0]])
            [0; 0] 0 _ _ eq_refl eq_refl eq_refl).
Defined.

(* ================================================================== *)
(** * A click on a directory *)
(* ================================================================== *)

Lemma nth_error_updateNth : forall l i f j,
  nth_error (updateNth l i f) j =
  if j =? i then option_map f (nth_error l j) else nth_error l j.
Proof.
  induction l as [|x l IH]; intros i f j.
  - destruct j; simpl; case_cond; reflexivity.
  - destruct i as [|i], j as [|j]; simpl; try reflexivity.
    apply IH.
Qed.

Lemma toggleAt_inode : forall path inst,
  inode (toggleAt path inst) = inode inst.
Proof. intros [|i path] inst; reflexivity. Qed.

Lemma allSettled_nth : forall l i k,
  allSettled l -> nth_error l i = Some k -> settled k.
Proof.
  induction l as [|x l IH]; intros i k H E; [destruct i; discriminate|].
  destruct H as [H1 H2]. destruct i as [|i].
  - injection E as <-. exact H1.
  - exact (IH i k H2 E).
Qed.

(** Rendering the children against old children of which the one at [i]
    had its state changed: the others are kept as they are. *)
Lemma renderChildren_one_changed :
  forall se i (g h : Instance -> Instance) l pre,
    (forall k, inode (g k) = inode k) ->
    allSettled l ->
    (forall k, nth_error (pre ++ l) i = Some k -> length pre <= i ->
       renderTreeNode (inode k) false se (Some (g k)) = h k) ->
    renderChildren se (updateNth (pre ++ l) i g) (map inode l) (length pre) =
    if i <? length pre then l else updateNth l (i - length pre) h.
Proof.
  intros se i g h l. induction l as [|k l IH]; intros pre Hg Ha Hi.
  - simpl. destruct (i <? length pre); reflexivity.
  - simpl map. rewrite renderChildren_cons. destruct Ha as [Ha1 Ha2].
    specialize (IH (pre ++ [k])). rewrite <- app_assoc in IH. simpl in IH.
    rewrite length_app in IH. simpl in IH. rewrite Nat.add_1_r in IH.
    rewrite IH; [|exact Hg|exact Ha2|intros k0 H0 H1; apply Hi; [exact H0|lia]].
    assert (Hn : nth_error (pre ++ k :: l) (length pre) = Some k).
    { rewrite nth_error_app2 by lia. rewrite Nat.sub_diag. reflexivity. }
    unfold retained. rewrite nth_error_updateNth, Hn.
    destruct (Nat.ltb_spec i (length pre)) as [Hlt|Hge].
    + replace (length pre =? i) with false
        by (symmetry; apply Nat.eqb_neq; lia).
      rewrite strEq_refl, (render_stable k Ha1).
      replace (i <? S (length pre)) with true
        by (symmetry; apply Nat.ltb_lt; lia).
      reflexivity.
    + destruct (Nat.eqb_spec (length pre) i) as [He|Hne].
      * simpl option_map. cbv beta iota. rewrite Hg, strEq_refl.
        rewrite (Hi k); [|rewrite <- He; exact Hn|lia].
        replace (i <? S (length pre)) with true
          by (symmetry; apply Nat.ltb_lt; lia).
        rewrite <- He, Nat.sub_diag. reflexivity.
      * rewrite strEq_refl, (render_stable k Ha1).
        replace (i <? S (length pre)) with false
          by (symmetry; apply Nat.ltb_ge; lia).
        destruct (i - length pre) as [|m] eqn:Em; [lia|].
        replace (i - S (length pre)) with m by lia. reflexivity.
Qed.

(** The render that follows the toggle of the directory at [path]: that
    instance becomes [toggled], every other one is kept. *)
Lemma render_after_toggle : forall se path root target,
  settled root -> instanceAt path root = Some target ->
  isDirectory (inode target) = true ->
  forall isRoot,
    renderTreeNode (inode root) isRoot se (Some (toggleAt path root)) =
    replaceAt path root (toggled se target).
Proof.
  intros se. induction path as [|i path IH];
    intros root target Hs Hat Hdir isRoot.
  - injection Hat as <-. destruct root as [n e ks].
    apply settled_unfold in Hs. destruct Hs as [Hk _].
    simpl in Hdir. rewrite renderTreeNode_unfold. cbv zeta. simpl.
    unfold toggled. simpl. rewrite Hdir in *.
    destruct e; simpl in *; [reflexivity|]. subst ks. reflexivity.
  - destruct root as [n e ks]. simpl in Hat.
    destruct (nth_error ks i) as [ki|] eqn:E; [|discriminate].
    apply settled_unfold in Hs. destruct Hs as [Hk Hall].
    assert (Hed : e && isDirectory n = true).
    { destruct (e && isDirectory n); [reflexivity|].
      subst ks. destruct i; discriminate. }
    rewrite Hed in Hk.
    rewrite renderTreeNode_unfold. cbv zeta. simpl.
    rewrite Hed. f_equal. rewrite <- Hk.
    pose proof (renderChildren_one_changed se i (toggleAt path)
                  (fun k => replaceAt path k (toggled se target)) ks []
                  (toggleAt_inode path) Hall) as Hr.
    simpl in Hr. rewrite Nat.sub_0_r in Hr. apply Hr.
    intros k Hk0 _. rewrite E in Hk0. injection Hk0 as <-.
    apply IH; [exact (allSettled_nth ks i ki Hall E)|exact Hat|exact Hdir].
Qed.

Lemma instanceAt_replaceAt : forall path root target new,
  instanceAt path root = Some target ->
  instanceAt path (replaceAt path root new) = Some new.
Proof.
  induction path as [|i path IH]; intros root target new H; [reflexivity|].
  simpl in *. rewrite nth_error_updateNth, Nat.eqb_refl.
  destruct (nth_error (kids root) i) as [k|]; [|discriminate].
  simpl. exact (IH k target new H).
Qed.

(** X14.  A click on a shown directory, in any state the application
    reaches, changes the tree view at that directory only: the directory
    is collapsed with its whole subtree unmounted when it was expanded, and
    expanded with its children mounted afresh when it was collapsed; every
    other mounted [TreeNode] keeps its state. *)
Theorem directory_click_toggles :
  forall kernelData h0 events path key root target,
  let st := run kernelData (initialState kernelData h0) events in
  let after := toggled (negb (isEmpty (searchTerm st))) target in
  mounted st = Some (key, root) ->
  instanceAt path root = Some target ->
  isDirectory (inode target) = true ->
  mounted (step kernelData st (Interact path)) =
    Some (key, replaceAt path root after) /\
  instanceAt path (replaceAt path root after) = Some after /\
  isExpanded after = negb (isExpanded target).
Proof.
  intros kernelData h0 events path key root target st after Hmt Hat Hdir.
  destruct (reachable_ok kernelData h0 events) as (_ & Ht & Hk & Hv & _).
  fold st in Ht, Hk, Hv. unfold keyOk, viewOk in *. rewrite Hmt in *.
  destruct (filteredData st) as [d|] eqn:Ed; [|contradiction].
  destruct Hv as [Hd Hs]. subst key.
  split; [|split].
  - simpl. unfold handleInteraction. rewrite Hmt, Hat, Hdir.
    rewrite renderApp_mounted.
    match goal with |- context [filteredData (renderApp kernelData ?s0)] =>
      rewrite (renderApp_same_term kernelData s0 Ht) end.
    simpl. rewrite Ed, Nat.eqb_refl, <- Hd.
    rewrite (render_after_toggle _ path root target Hs Hat Hdir).
    reflexivity.
  - exact (instanceAt_replaceAt path root target after Hat).
  - unfold after, toggled. destruct (isExpanded target); reflexivity.
Qed.

Lemma directory_click_toggles_witness :
  let st := run Sample.root (initialState Sample.root Sample.heap0) [] in
  mounted (step Sample.root st (Interact [0])) =
    Some (0, mkInstance Sample.root true
               [mkInstance Sample.nodeA true
                  [mkInstance Sample.nodeB false []];
                mkInstance Sample.nodeC false []]).
Proof.
  cbv zeta.
  refine (proj1 (directory_click_toggles Sample.root Sample.heap0 []
                   [0] 0 _ _ eq_refl eq_refl eq_refl)).
Defined.

(* ================================================================== *)
(** * The detail panel *)
(* ================================================================== *)

Lemma stripTrailingSlash_slash : forall body,
  stripTrailingSlash (body ++ [slash]) = body.
Proof.
  induction body as [|c r IH]; [reflexivity|].
  simpl app. simpl stripTrailingSlash.
  destruct (r ++ [slash]) as [|x l] eqn:E; [destruct r; discriminate|].
  rewrite IH. reflexivity.
Qed.

Lemma stripTrailingSlash_other : forall body c,
  c <> slash -> stripTrailingSlash (body ++ [c]) = body ++ [c].
Proof.
  intros body c Hc. induction body as [|b r IH].
  - simpl. destruct (Ascii.eqb_spec c slash); [contradiction|reflexivity].
  - simpl app. simpl stripTrailingSlash.
    destruct (r ++ [c]) as [|x l] eqn:E; [destruct r; discriminate|].
    rewrite IH. reflexivity.
Qed.

(** X15.  The label of a breadcrumb button is never empty: it is the name
    of the node without one trailing slash, and "linux" when nothing is
    left; only one slash is removed, and only at the end. *)
Theorem crumbLabel_spec :
  (forall name, crumbLabel name <> []) /\
  crumbLabel [] = lit "linux" /\
  (forall body,
     crumbLabel (body ++ [slash]) =
     if isEmpty body then lit "linux" else body) /\
  (forall body c, c <> slash -> crumbLabel (body ++ [c]) = body ++ [c]).
Proof.
  split; [|split; [reflexivity|split]].
  - intro name. unfold crumbLabel.
    destruct (stripTrailingSlash name); simpl; discriminate.
  - intro body. unfold crumbLabel. rewrite stripTrailingSlash_slash.
    destruct body; reflexivity.
  - intros body c Hc. unfold crumbLabel.
    rewrite (stripTrailingSlash_other body c Hc).
    destruct body; reflexivity.
Qed.

Lemma crumbLabel_spec_witness :
  crumbLabel (lit "kernel/") = lit "kernel" /\
  crumbLabel (lit "sched.c") = lit "sched.c".
Proof.
  destruct crumbLabel_spec as (_ & _ & H3 & H4). split.
  - exact (H3 (lit "kernel")).
  - apply (H4 (lit "sched.") "c"%char). discriminate.
Defined.

Lemma crumbsFrom_closed : forall l index len,
  index + length l = len ->
  crumbsFrom l index len =
  match l with
  | [] => []
  | p :: rest =>
      CrumbButton p (crumbLabel (name p))
        :: flat_map
             (fun q => [CrumbSeparator; CrumbButton q (crumbLabel (name q))])
             rest
  end.
Proof.
  induction l as [|p rest IH]; intros index len H; [reflexivity|].
  simpl crumbsFrom. f_equal. simpl in H.
  rewrite (IH (S index) len) by lia.
  destruct rest as [|q r]; simpl in H.
  - replace (index <? len - 1) with false
      by (symmetry; apply Nat.ltb_ge; lia).
    reflexivity.
  - replace (index <? len - 1) with true
      by (symmetry; apply Nat.ltb_lt; lia).
    reflexivity.
Qed.

(** X16.  The breadcrumb shows one button per node of the path, in the
    order of the path, each with the label of its node and selecting that
    node, and a separator between two buttons: none before the first, none
    after the last. *)
Theorem breadcrumb_structure : forall path,
  breadcrumb path = crumbsOf path.
Proof.
  intro path. unfold breadcrumb, crumbsOf. apply crumbsFrom_closed.
  reflexivity.
Qed.

(* ================================================================== *)
(** * Paths in a well-formed tree *)
(* ================================================================== *)

Lemma chain_firstn : forall l m, chain l -> chain (firstn m l).
Proof.
  induction l as [|a l IH]; intros m H; [destruct m; exact I|].
  destruct m as [|m]; [exact I|].
  destruct l as [|b l]; [destruct m; exact I|].
  destruct m as [|m]; [exact I|].
  destruct H as [H1 H2]. split; [exact H1|].
  exact (IH (S m) H2).
Qed.

Lemma chain_in_preorder : forall q root x,
  chain (root :: q) -> In x (root :: q) -> In x (preorder root).
Proof.
  induction q as [|c r IH]; intros root x Hc Hin.
  - destruct Hin as [<-|[]]. rewrite preorder_unfold. left. reflexivity.
  - destruct Hc as [Hp Hc]. rewrite preorder_unfold.
    destruct Hin as [<-|Hin]; [left; reflexivity|right].
    apply in_flat_map. exists c. split; [exact Hp|exact (IH c x Hc Hin)].
Qed.

Lemma NoDup_app_disjoint : forall (l1 l2 : list nat) a,
  NoDup (l1 ++ l2) -> In a l1 -> In a l2 -> False.
Proof.
  induction l1 as [|x l1 IH]; intros l2 a Hnd H1 H2; [destruct H1|].
  simpl in Hnd. inversion Hnd as [|? ? Hx Hnd']; subst.
  destruct H1 as [->|H1].
  - apply Hx. apply in_or_app. right. exact H2.
  - exact (IH l2 a Hnd' H1 H2).
Qed.

(** In a well-formed tree a node lies below one child only. *)
Lemma unique_child : forall cs c1 c2 x,
  NoDup (map ident (flat_map preorder cs)) ->
  In c1 cs -> In c2 cs ->
  In x (preorder c1) -> In x (preorder c2) -> c1 = c2.
Proof.
  induction cs as [|c cs IH]; intros c1 c2 x Hnd H1 H2 X1 X2;
    [destruct H1|].
  simpl in Hnd. rewrite map_app in Hnd.
  assert (Hcross : forall a b,
            In x (preorder a) -> a = c -> In b cs -> In x (preorder b) ->
            False).
  { intros a b Xa -> Hb Xb.
    apply (NoDup_app_disjoint _ _ (ident x) Hnd).
    - apply in_map. exact Xa.
    - apply in_map. apply in_flat_map. exists b. auto. }
  destruct H1 as [<-|H1], H2 as [<-|H2].
  - reflexivity.
  - exfalso. exact (Hcross c c2 X1 eq_refl H2 X2).
  - exfalso. exact (Hcross c c1 X2 eq_refl H1 X1).
  - apply (IH c1 c2 x); auto.
    exact (NoDup_app_remove_l _ _ Hnd).
Qed.

Lemma wellFormed_child : forall cs c,
  NoDup (map ident (flat_map preorder cs)) -> In c cs -> wellFormed c.
Proof.
  induction cs as [|c0 cs IH]; intros c Hnd Hin; [destruct Hin|].
  simpl in Hnd. rewrite map_app in Hnd. destruct Hin as [<-|Hin].
  - exact (NoDup_app_remove_r _ _ Hnd).
  - apply IH; [exact (NoDup_app_remove_l _ _ Hnd)|exact Hin].
Qed.

Lemma last_in : forall (l : list KernelNode) a, In (last (a :: l) a) (a :: l).
Proof.
  induction l as [|b l IH]; intro a; [left; reflexivity|].
  right. change (In (last (b :: l) a) (b :: l)).
  rewrite (last_default _ l b a b). apply IH.
Qed.

(** In a well-formed tree there is one chain of parents from the root to
    a node. *)
Lemma unique_chain : forall root,
  wellFormed root ->
  forall q1 q2,
    chain (root :: q1) -> chain (root :: q2) ->
    last (root :: q1) root = last (root :: q2) root -> q1 = q2.
Proof.
  induction root as [i n s d|i n s d cs IH] using KernelNode_ind;
    intros Hwf q1 q2 C1 C2 Hl.
  - destruct q1 as [|c1 r1]; [|destruct C1 as [[] _]].
    destruct q2 as [|c2 r2]; [reflexivity|destruct C2 as [[] _]].
  - set (root := mkNode i n s d (Some cs)) in *.
    unfold wellFormed in Hwf. simpl in Hwf.
    inversion Hwf as [|? ? Hroot Hnd]; subst.
    assert (Hbelow : forall c r,
              chain (root :: c :: r) ->
              In c cs /\ In (last (root :: c :: r) root) (preorder c)).
    { intros c r [Hp Hc]. split; [exact Hp|].
      change (last (root :: c :: r) root) with (last (c :: r) root).
      rewrite (last_default _ r c root c).
      apply (chain_in_preorder r c _ Hc). apply last_in. }
    assert (Hnot : forall c r,
              chain (root :: c :: r) ->
              last (root :: c :: r) root <> root).
    { intros c r Hc Heq. destruct (Hbelow c r Hc) as [Hin Hx].
      rewrite Heq in Hx. apply Hroot.
      change i with (ident root). apply in_map.
      apply in_flat_map. exists c. auto. }
    destruct q1 as [|c1 r1], q2 as [|c2 r2].
    + reflexivity.
    + exfalso. apply (Hnot c2 r2 C2). symmetry. exact Hl.
    + exfalso. apply (Hnot c1 r1 C1). exact Hl.
    + destruct (Hbelow c1 r1 C1) as [H1 X1].
      destruct (Hbelow c2 r2 C2) as [H2 X2].
      rewrite Hl in X1.
      assert (Hc : c1 = c2) by exact (unique_child cs c1 c2 _ Hnd H1 H2 X1 X2).
      subst c2. f_equal.
      rewrite Forall_forall in IH.
      apply (IH c1 H1 (wellFormed_child cs c1 Hnd H1)).
      * exact (proj2 C1).
      * exact (proj2 C2).
      * change (last (root :: c1 :: r1) root) with (last (c1 :: r1) root) in Hl.
        change (last (root :: c1 :: r2) root) with (last (c1 :: r2) root) in Hl.
        rewrite (last_default _ r1 c1 root c1) in Hl.
        rewrite (last_default _ r2 c1 root c1) in Hl. exact Hl.
Qed.

Lemma last_firstn : forall (l : list KernelNode) index p d,
  nth_error l index = Some p -> last (firstn (S index) l) d = p.
Proof.
  induction l as [|a l IH]; intros index p d H; [destruct index; discriminate|].
  destruct index as [|index].
  - injection H as <-. destruct l; reflexivity.
  - simpl in H. destruct l as [|b l]; [destruct index; discriminate|].
    change (last (firstn (S index) (b :: l)) d = p). exact (IH index p d H).
Qed.

(** What [findNodePath] returns is empty or a chain from the root. *)
Lemma findNodePath_shape : forall root target,
  findNodePath root target = [] \/
  exists q, findNodePath root target = root :: q /\ chain (root :: q).
Proof.
  intros root target.
  destruct (firstIdentical root target) as [x|] eqn:E.
  - right. destruct (findNodePath_first_identical root target x E)
      as [q [Hq [Hc _]]].
    exists q. auto.
  - left. apply findNodePath_not_found. exact E.
Qed.

(** X17.  A click on the breadcrumb button at [index], in any state the
    application reaches over a well-formed canonical tree, selects the node
    of that button and cuts the breadcrumb down to its first [index + 1]
    elements; it does so with or without a search term, because the
    breadcrumb holds objects of the canonical tree. *)
Theorem breadcrumb_click_truncates :
  forall kernelData h0 events index p,
  let st := run kernelData (initialState kernelData h0) events in
  wellFormed kernelData ->
  nth_error (selectedNodePath st) index = Some p ->
  let st' := step kernelData st (Breadcrumb index) in
  selectedNode st' = Some p /\
  selectedNodePath st' = firstn (S index) (selectedNodePath st).
Proof.
  intros kernelData h0 events index p st Hwf Hnth st'.
  destruct (reachable_ok kernelData h0 events) as (_ & _ & _ & _ & Hsel).
  fold st in Hsel. unfold selectionOk in Hsel.
  unfold st'. simpl. rewrite Hnth. unfold handleNodeSelect.
  match goal with |- context [renderApp kernelData ?s0] =>
    destruct (renderApp_hooks kernelData s0) as (_ & _ & H3 & H4) end.
  rewrite H3, H4. simpl. split; [reflexivity|].
  assert (Hpath : exists q, selectedNodePath st = kernelData :: q /\
                            chain (kernelData :: q)).
  { destruct (selectedNode st) as [n|].
    - rewrite Hsel in *.
      destruct (findNodePath_shape kernelData n) as [He|Hq]; [|exact Hq].
      rewrite He in Hnth. destruct index; discriminate.
    - rewrite Hsel in Hnth. destruct index; discriminate. }
  destruct Hpath as [q [Hq Hc]]. rewrite Hq in *.
  assert (Hin : In p (preorder kernelData)).
  { apply (chain_in_preorder q kernelData p Hc).
    exact (nth_error_In _ _ Hnth). }
  assert (Hf : firstIdentical kernelData p = Some p)
    by (apply find_unique_ident; assumption).
  destruct (findNodePath_first_identical _ _ _ Hf) as [q' [Hq' [Hc' Hl']]].
  rewrite Hq'. simpl firstn. f_equal.
  apply (unique_chain kernelData Hwf).
  - exact Hc'.
  - exact (chain_firstn (kernelData :: q) (S index) Hc).
  - rewrite Hl'. symmetry.
    exact (last_firstn (kernelData :: q) index p kernelData Hnth).
Qed.

Lemma breadcrumb_click_truncates_witness :
  let st := run Sample.root (initialState Sample.root Sample.heap0)
              [Interact [0]; Interact [0; 0]] in
  selectedNodePath st = [Sample.root; Sample.nodeA; Sample.nodeB] /\
  selectedNode (step Sample.root st (Breadcrumb 1)) = Some Sample.nodeA /\
  selectedNodePath (step Sample.root st (Breadcrumb 1)) =
    firstn 2 (selectedNodePath st).
Proof.
  cbv zeta. split; [reflexivity|].
  assert (Hwf : wellFormed Sample.root).
  { unfold wellFormed. simpl.
    repeat (constructor; [simpl; intuition discriminate|]). constructor. }
  exact (breadcrumb_click_truncates Sample.root Sample.heap0
           [Interact [0]; Interact [0; 0]] 1 Sample.nodeA Hwf eq_refl).
Defined.

(* ================================================================== *)
(** * The filtered tree against its source *)
(* ================================================================== *)

Section Origin.

Variable lct : jsstring.
Hypothesis lct_normal : trim (toLowerCase lct) = lct.
Hypothesis lct_nonempty : isEmpty lct = false.

Lemma result_texts : forall T k R,
  fst (filterTree T lct k) = Some R ->
  name R = name T /\ summary R = summary T /\ description R = description T.
Proof.
  intros T k R H.
  destruct (built_shape lct lct_normal lct_nonempty T R
              (ex_intro _ k H)) as (H1 & H2 & H3 & _).
  auto.
Qed.

(** Every node of a result is the result for a node of the source. *)
Lemma result_origin : forall T k R,
  fst (filterTree T lct k) = Some R ->
  forall r, In r (preorder R) ->
    exists n kn, In n (preorder T) /\ fst (filterTree n lct kn) = Some r.
Proof.
  induction T as [i nm s d|i nm s d cs IH] using KernelNode_ind;
    intros k R HR r Hr;
    destruct (result_decompose lct lct_normal lct_nonempty _ k R HR)
      as (_ & _ & Hc);
    rewrite preorder_unfold in Hr; destruct Hr as [<-|Hr].
  - eexists. exists k. split; [left; reflexivity|exact HR].
  - apply in_flat_map in Hr. destruct Hr as [c [Hc1 _]].
    destruct (Hc c Hc1) as [c0 [kc [[] _]]].
  - eexists. exists k. split; [left; reflexivity|exact HR].
  - apply in_flat_map in Hr. destruct Hr as [c [Hc1 Hc2]].
    destruct (Hc c Hc1) as [c0 [kc [Hin Hres]]].
    rewrite Forall_forall in IH.
    destruct (IH c0 Hin kc c Hres r Hc2) as [n [kn [Hn Hk]]].
    exists n, kn. split; [|exact Hk].
    right. simpl. apply in_flat_map. exists c0. auto.
Qed.

(** A result has no more nodes than its source. *)
Lemma result_size : forall T k R,
  fst (filterTree T lct k) = Some R ->
  length (preorder R) <= length (preorder T).
Proof.
  induction T as [i nm s d|i nm s d cs IH] using KernelNode_ind;
    intros k R; rewrite (filterTree_step lct lct_normal lct_nonempty);
    unfold filteredChildrenOf; simpl.
  - case_cond; simpl; intros [= <-]. simpl. lia.
  - assert (Hl : forall k,
              length (flat_map preorder
                        (filterNotNull (fst (mapFilterTree lct cs k))))
              <= length (flat_map preorder cs)).
    { clear k. induction IH as [|c cs Hc _ IHcs]; intro k; [simpl; lia|].
      rewrite mapFilterTree_cons. specialize (Hc k).
      destruct (filterTree c lct k) as [rc k1].
      specialize (IHcs k1).
      destruct (mapFilterTree lct cs k1) as [rs k2]. simpl in *.
      rewrite length_app. destruct rc as [rc|]; simpl.
      - rewrite length_app. specialize (Hc rc eq_refl). lia.
      - lia. }
    specialize (Hl k). destruct (mapFilterTree lct cs k) as [mapped k1].
    simpl in *. case_cond; simpl; intros [= <-]. simpl. lia.
Qed.

End Origin.

(** X18.  With a term that filters, the tree that [filterTree] returns
    holds nothing that is not in its source: every node of it is what
    [filterTree] returns for some node of the source, with the name,
    summary and description of that node, and the result has at most as
    many nodes as the source. *)
Theorem filtered_nodes_come_from_source : forall T s k R,
  effective s ->
  fst (filterTree T s k) = Some R ->
  length (preorder R) <= length (preorder T) /\
  forall r, In r (preorder R) ->
    exists n, In n (preorder T) /\ Built s n r /\
              name r = name n /\ summary r = summary n /\
              description r = description n.
Proof.
  intros T s k R Hs HR.
  pose proof (lowerCaseTerm_idem s) as Hn.
  pose proof (effective_nonempty s Hs) as He.
  rewrite <- filterTree_normalised in HR. split.
  - exact (result_size _ Hn He T k R HR).
  - intros r Hr.
    destruct (result_origin _ Hn He T k R HR r Hr) as [n [kn [Hin Hk]]].
    exists n. split; [exact Hin|].
    split; [exists kn; rewrite <- filterTree_normalised; exact Hk|].
    exact (result_texts _ Hn He n kn r Hk).
Qed.

Lemma filtered_nodes_come_from_source_witness :
  effective (lit "sched") /\
  length (preorder Sample.filteredRoot) <= length (preorder Sample.root).
Proof.
  split; [reflexivity|].
  exact (proj1 (filtered_nodes_come_from_source Sample.root (lit "sched")
                  Sample.heap0 Sample.filteredRoot eq_refl eq_refl)).
Defined.
